(** * sparti-receiver: batch ingestion and retrieval

    A shallow embedding of [db/index.ts], [utils/errors.ts],
    [middleware/errorHandler.ts] and the routes of [index.ts], together
    with the properties of the batch allocator, the chunked writer, the
    batch reader and the routes.

    Conventions.
    - Array lengths, loop counters and array indices are [nat]; the two
      numeric constants of the writer are written through binary literals.
    - Values of integer columns ([batch_id], [row_number], [id]) are [Z].
    - A JavaScript [number] that comes from outside (the argument of
      [fetchBatchData]) is a [number]: NaN, an infinity or a rational.
    - A promise that may reject is a value of [Thrown + A]; the [.catch]
      handler of each call site is the [inl] branch of the match on it.
    - The database is an interface ([Database]); every statement sent to it
      is also appended to a trace, so that which statements a call issues
      can be stated.  The queries of [testConnection] and [getAllBatchIds]
      go through a second interface ([Pool]) and are not traced. *)

From Stdlib Require Import QArith Ascii.
From stdpp Require Import base option list strings numbers pretty sorting.

Local Close Scope Q_scope.
Local Open Scope nat_scope.

#[local] Set Warnings "-register-all".

(** ** JavaScript values *)

Inductive number :=
| NaN
| Infinity (negative : bool)
| Finite (q : Q).

Definition isNaN (n : number) : bool :=
  match n with NaN => true | _ => false end.

(** [a < b] of the language: false as soon as one side is NaN. *)
Definition number_lt (a b : number) : bool :=
  match a, b with
  | NaN, _ | _, NaN => false
  | Infinity true, Infinity true => false
  | Infinity true, _ => true
  | _, Infinity true => false
  | Infinity false, _ => false
  | Finite _, Infinity false => true
  | Finite x, Finite y => (Qnum x * Zpos (Qden y) <? Qnum y * Zpos (Qden x))%Z
  end.

Definition number_of_Z (z : Z) : number := Finite (inject_Z z).

(** An integral number, as an integer. *)
Definition number_to_Z (n : number) : option Z :=
  match n with
  | Finite q =>
      if decide (Qnum q `mod` Zpos (Qden q) = 0)%Z
      then Some (Qnum q `div` Zpos (Qden q))%Z else None
  | _ => None
  end.

Inductive JsValue :=
| JUndefined
| JNull
| JBool (b : bool)
| JNum (n : number)
| JStr (s : string)
| JArr (items : list JsValue)
| JObj (fields : list (string * JsValue)).

(** [!v] is [negb (truthy v)]. *)
Definition truthy (v : JsValue) : bool :=
  match v with
  | JUndefined | JNull => false
  | JBool b => b
  | JNum NaN => false
  | JNum (Finite q) => negb (Qnum q =? 0)%Z
  | JNum (Infinity _) => true
  | JStr s => negb (String.eqb s "")
  | JArr _ | JObj _ => true
  end.

(** Own property of an object literal. *)
Fixpoint get_field (key : string) (fields : list (string * JsValue)) : option JsValue :=
  match fields with
  | [] => None
  | (k, v) :: rest => if String.eqb k key then Some v else get_field key rest
  end.

Definition keys (fields : list (string * JsValue)) : list string := fields.*1.

(** ** parseInt(s, 10)

    Leading white space is skipped, one sign is read, then the longest run of
    decimal digits; no digit at all gives NaN ([None]).  The result of
    [parseInt] is NaN or an integer, hence [option Z].  White space is the
    ASCII white space, and the integer is exact (the rounding of digit
    strings beyond 2^53 is not modelled). *)

Definition is_white_space (a : ascii) : bool :=
  let n := nat_of_ascii a in
  (n =? 9) || (n =? 10) || (n =? 11) || (n =? 12) || (n =? 13) || (n =? 32).

Fixpoint trim_start (s : string) : string :=
  match s with
  | String a rest => if is_white_space a then trim_start rest else s
  | EmptyString => s
  end.

Definition digit_value (a : ascii) : option Z :=
  let n := nat_of_ascii a in
  if (48 <=? n) && (n <=? 57) then Some (Z.of_nat (n - 48)) else None.

Fixpoint parse_digits (acc : option Z) (s : string) : option Z :=
  match s with
  | String a rest =>
      match digit_value a with
      | Some d => parse_digits (Some (10 * default 0%Z acc + d)%Z) rest
      | None => acc
      end
  | EmptyString => acc
  end.

Definition parseInt (s : string) : option Z :=
  match trim_start s with
  | String "-"%char rest => Z.opp <$> parse_digits None rest
  | String "+"%char rest => parse_digits None rest
  | body => parse_digits None body
  end.

(** ** utils/errors.ts *)

(** What a [throw] or a rejected promise carries: an [AppError], another
    [Error], a string, or anything else.  [isOperational] is never set to
    anything but its default and is left out. *)
Inductive Thrown :=
| AppError (message : string) (statusCode : nat)
| Error (message : string)
| ThrownString (s : string)
| ThrownOther.

Definition getErrorMessage (error : Thrown) : string :=
  match error with
  | AppError message _ | Error message => message
  | ThrownString s => s
  | ThrownOther => "An unknown error occurred"
  end.

Definition formatErrorMessage (operation details : string) : string :=
  if String.eqb details "" then operation
  else operation +:+ ": " +:+ details.

Definition isAppError (error : Thrown) : bool :=
  match error with AppError _ _ => true | _ => false end.

Record Response := { status : nat; body : JsValue }.

Definition createErrorResponse (error : string) (message : option string) : JsValue :=
  JObj [("success", JBool false);
        ("error", JStr error);
        ("message", JStr (match message with
                          | Some m => if String.eqb m "" then error else m
                          | None => error
                          end))].

Definition createSuccessResponse (data : JsValue) (message : option string) : JsValue :=
  JObj ([("success", JBool true)]
        ++ match message with
           | Some m => if String.eqb m "" then [] else [("message", JStr m)]
           | None => []
           end
        ++ match data with
           | JUndefined => []
           | _ => [("data", data)]
           end).

Definition sendErrorResponse (error : string) (statusCode : nat)
    (message : option string) : Response :=
  {| status := statusCode; body := createErrorResponse error message |}.

Definition sendSuccessResponse (data : JsValue) (statusCode : nat)
    (message : option string) : Response :=
  {| status := statusCode; body := createSuccessResponse data message |}.

(** ** types/index.ts and db/schema.ts *)

(** [SheetDataRow] is [Record<string, unknown>]: whatever JSON value each
    element of the posted array is. *)
Abbreviation SheetDataRow := JsValue.

Module RowError.
Record t := mk {
  rowIndex : nat;
  rowNumber : nat;
  rowData : SheetDataRow;
  error : string }.
End RowError.

Module StoreSheetDataResult.
Record t := mk {
  success : bool;
  batchId : Z;
  inserted : nat;
  errors : list RowError.t }.
End StoreSheetDataResult.

(** A row of [sheet_data] as selected. *)
Module SheetData.
Record t := mk {
  id : Z;
  batchId : Z;
  rowNumber : Z;
  data : JsValue;
  createdAt : nat }.
End SheetData.

(** A row as handed to [db.insert(sheetData).values]. *)
Module NewSheetData.
Record t := mk {
  batchId : Z;
  rowNumber : Z;
  data : SheetDataRow }.
End NewSheetData.

(** Result of the allocator's query: [rows[0].next_batch_id] is read as a
    string (the argument of [parseInt]). *)
Record BatchIdRow := { next_batch_id : string }.
Record QueryResult := { rows : list BatchIdRow }.

(** ** The store as an interface, statements and their trace *)

Inductive Statement :=
| SqlNextBatchId (tableName : string)
| SqlInsert (values : list NewSheetData.t)
| SqlSelectBatch (batchId : number).

(** The place in the code that sent a statement. *)
Inductive Site :=
| Allocate
| Bulk
| Chunk (chunkNumber : nat)
| Single (i : nat)
| Fetch.

Record Event := { site : Site; stmt : Statement; failure : option Thrown }.

Class Database (W : Type) := {
  pool_query : string → W → (Thrown + QueryResult) * W;
  db_insert : list NewSheetData.t → W → (Thrown + unit) * W;
  db_select : number → W → (Thrown + list SheetData.t) * W
}.

Record State (W : Type) := { world : W; trace : list Event }.
Arguments world {W} _.
Arguments trace {W} _.

(** ** State and exception monad of an asynchronous function *)

Definition M (S A : Type) : Type := S → (Thrown + A) * S.

#[export] Instance M_ret {S} : MRet (M S) := λ A x s, (inr x, s).
#[export] Instance M_bind {S} : MBind (M S) := λ A B f m s,
  match m s with
  | (inl e, s') => (inl e, s')
  | (inr x, s') => f x s'
  end.
#[export] Instance M_throw {S} : MThrow Thrown (M S) := λ A e s, (inl e, s).

Definition failure_of {A} (r : Thrown + A) : option Thrown :=
  match r with inl e => Some e | inr _ => None end.

Section Store.
Context {W : Type} `{Database W}.

Definition log (ev : Event) (s : State W) (w : W) : State W :=
  {| world := w; trace := trace s ++ [ev] |}.

(** [await pool.query(...)] settled: the rejection reason or the result. *)
Definition await_query (tableName : string) : M (State W) (Thrown + QueryResult) :=
  λ s, let '(r, w) := pool_query tableName (world s) in
       (inr r, log {| site := Allocate; stmt := SqlNextBatchId tableName;
                      failure := failure_of r |} s w).

(** [await db.insert(sheetData).values(vs)] settled. *)
Definition await_insert (from : Site) (vs : list NewSheetData.t)
    : M (State W) (Thrown + unit) :=
  λ s, let '(r, w) := db_insert vs (world s) in
       (inr r, log {| site := from; stmt := SqlInsert vs;
                      failure := failure_of r |} s w).

(** [await db.select().from(sheetData).where(eq(..)).orderBy(asc(..))] settled. *)
Definition await_select (batchId : number)
    : M (State W) (Thrown + list SheetData.t) :=
  λ s, let '(r, w) := db_select batchId (world s) in
       (inr r, log {| site := Fetch; stmt := SqlSelectBatch batchId;
                      failure := failure_of r |} s w).

(** *** getNextBatchId *)
Definition getNextBatchId (tableName : string) : M (State W) Z :=
  settled ← await_query tableName;
  match settled with
  | inl error =>
      mthrow (AppError (formatErrorMessage "Failed to get next batch ID"
                          (getErrorMessage error)) 500)
  | inr batchIdResult =>
      match rows batchIdResult !! 0 with
      | None => mthrow (AppError "Failed to retrieve batch ID from database" 500)
      | Some row0 =>
          match parseInt (next_batch_id row0) with
          | None => mthrow (AppError "Invalid batch ID returned from database" 500)
          | Some batchId => mret batchId
          end
      end
  end.

(** *** insertRowsInChunks *)

(** [Math.ceil(a / b)] for a positive [b]. *)
Definition ceil_div (a b : nat) : nat := (a + b - 1) / b.

(** [l.slice(start, end)] for indices that are not negative. *)
Definition slice {A} (start end_ : nat) (l : list A) : list A :=
  take (end_ - start) (drop start l).

Section Chunks.
Variable insertData : list NewSheetData.t.
Variable sheetDataArray : list SheetDataRow.
Variable chunkSize : nat.

(** [for (let i = start; i < end; i++)], [trips] iterations left.
    Reading [insertData[i]] past the end gives [undefined], on which
    [values] throws; the loop bounds keep [i] in range ([row_loop_run]
    below), so that branch is never taken. *)
Fixpoint row_loop (trips i : nat) (insertedCount : nat)
    (errors : list RowError.t) : M (State W) (nat * list RowError.t) :=
  match trips with
  | 0 => mret (insertedCount, errors)
  | S trips' =>
      match insertData !! i with
      | None => mthrow (Error "Cannot convert undefined or null to object")
      | Some v =>
          insertResult ← await_insert (Single i) [v];
          match insertResult with
          | inl rowError =>
              row_loop trips' (S i) insertedCount
                (errors ++ [RowError.mk i (i + 1)
                              (default JUndefined (sheetDataArray !! i))
                              (getErrorMessage rowError)])
          | inr _ => row_loop trips' (S i) (S insertedCount) errors
          end
      end
  end.

(** [for (let chunkIndex = 0; chunkIndex < totalChunks; chunkIndex++)]. *)
Fixpoint chunk_loop (trips chunkIndex : nat) (insertedCount : nat)
    (errors : list RowError.t) : M (State W) (nat * list RowError.t) :=
  match trips with
  | 0 => mret (insertedCount, errors)
  | S trips' =>
      let start := chunkIndex * chunkSize in
      let end_ := (start + chunkSize) `min` length insertData in
      let chunk := slice start end_ insertData in
      let chunkNumber := chunkIndex + 1 in
      chunkResult ← await_insert (Chunk chunkNumber) chunk;
      match chunkResult with
      | inr _ =>
          chunk_loop trips' (S chunkIndex) (insertedCount + length chunk) errors
      | inl _ =>
          '(insertedCount', errors') ←
            row_loop (end_ - start) start insertedCount errors;
          chunk_loop trips' (S chunkIndex) insertedCount' errors'
      end
  end.

Definition insertRowsInChunks : M (State W) (nat * list RowError.t) :=
  let totalChunks := ceil_div (length insertData) chunkSize in
  chunk_loop totalChunks 0 0 [].
End Chunks.

(** *** storeSheetData *)

Definition CHUNK_SIZE : nat := N.to_nat 5000.
Definition LARGE_DATASET : nat := N.to_nat 10000.

Definition prepare (batchId : Z) (sheetDataArray : list SheetDataRow)
    : list NewSheetData.t :=
  imap (λ index row, NewSheetData.mk batchId (Z.of_nat (index + 1)) row)
       sheetDataArray.

Definition storeSheetData (sheetDataArray : JsValue) (tableName : string)
    : M (State W) StoreSheetDataResult.t :=
  match sheetDataArray with
  | JArr [] => mthrow (AppError "sheetData array cannot be empty" 400)
  | JArr sheetDataArray =>
      batchId ← getNextBatchId tableName;
      let totalRows := length sheetDataArray in
      let insertData := prepare batchId sheetDataArray in
      let useChunkedInserts := LARGE_DATASET <? totalRows in
      if useChunkedInserts then
        '(inserted, errors) ←
          insertRowsInChunks insertData sheetDataArray CHUNK_SIZE;
        mret (StoreSheetDataResult.mk true batchId inserted errors)
      else
        batchInsertResult ← await_insert Bulk insertData;
        match batchInsertResult with
        | inr _ => mret (StoreSheetDataResult.mk true batchId totalRows [])
        | inl _ =>
            '(inserted, errors) ←
              insertRowsInChunks insertData sheetDataArray CHUNK_SIZE;
            mret (StoreSheetDataResult.mk true batchId inserted errors)
        end
  | _ => mthrow (AppError "sheetData must be an array" 400)
  end.

(** *** fetchBatchData

    The message of the 400 error renders the argument with the language's
    number-to-string conversion, which is taken as a parameter. *)
Section Reader.
Variable Number_toString : number → string.

Definition fetchBatchData (batchId : number) : M (State W) (list SheetData.t) :=
  if isNaN batchId || number_lt batchId (number_of_Z 1) then
    mthrow (AppError ("Invalid batchId: " +:+ Number_toString batchId
                      +:+ ". Must be a positive number.") 400)
  else
    settled ← await_select batchId;
    match settled with
    | inl error =>
        mthrow (AppError (formatErrorMessage "Failed to fetch batch data"
                            (getErrorMessage error)) 500)
    | inr rows => mret rows
    end.
End Reader.

(** *** POST /api/upload-sheet-data (index.ts)

    The argument is [req.body.sheetData]. *)
Definition RowError_to_js (e : RowError.t) : JsValue :=
  JObj [("rowIndex", JNum (number_of_Z (Z.of_nat (RowError.rowIndex e))));
        ("rowNumber", JNum (number_of_Z (Z.of_nat (RowError.rowNumber e))));
        ("rowData", RowError.rowData e);
        ("error", JStr (RowError.error e))].

Definition upload_sheet_data (sheetData : JsValue) : M (State W) Response :=
  if negb (truthy sheetData) then
    mret (sendErrorResponse "No sheetData provided in the request body" 400 None)
  else
    match sheetData with
    | JArr [] => mret (sendErrorResponse "sheetData array cannot be empty" 400 None)
    | JArr _ =>
        result ← storeSheetData sheetData "sheet_data";
        let errors := StoreSheetDataResult.errors result in
        let batchId := JNum (number_of_Z (StoreSheetDataResult.batchId result)) in
        let inserted :=
          JNum (number_of_Z (Z.of_nat (StoreSheetDataResult.inserted result))) in
        if 0 <? length errors then
          mret (sendSuccessResponse
                  (JObj [("batchId", batchId);
                         ("inserted", inserted);
                         ("errors", JArr (RowError_to_js <$> errors))])
                  207
                  (Some ("Data stored with " +:+ pretty (length errors)
                         +:+ " errors")))
        else
          mret (sendSuccessResponse
                  (JObj [("batchId", batchId); ("inserted", inserted)])
                  200
                  (Some ("Successfully stored "
                         +:+ pretty (StoreSheetDataResult.inserted result)
                         +:+ " rows to database")))
    | _ => mret (sendErrorResponse "sheetData must be an array" 400 None)
    end.
End Store.

(** ** A relational store

    An instance of [Database]: the [sheet_data] table with its serial key,
    its uniqueness constraint on [(batch_id, row_number)] and its
    [data JSONB NOT NULL] column, and a schedule of connection failures.
    The allocator's query, the insert and the select follow the SQL text
    the code sends.

    What the [jsonb] type does to a payload is the store's: [refused] is
    the error of a payload it does not take, [kept] is what a select gives
    back for one it took (jsonb does not keep a document as written: the
    keys of an object come back in its own order).  Both are fields of the
    store, so that what is proved holds whatever they are. *)

Record Pg := {
  table : list SheetData.t;
  serial : Z;
  clock : nat;
  down : nat → bool;
  refused : JsValue → option Thrown;
  kept : JsValue → JsValue
}.

Definition tick (w : Pg) : Pg :=
  {| table := table w; serial := serial w; clock := S (clock w); down := down w;
     refused := refused w; kept := kept w |}.

Definition int4 (z : Z) : bool := bool_decide (-2147483648 ≤ z ≤ 2147483647)%Z.

(** [MAX(batch_id)], NULL on an empty table. *)
Definition max_batch_id (t : list SheetData.t) : option Z :=
  foldr (λ r acc, Some (match acc with
                        | None => SheetData.batchId r
                        | Some m => SheetData.batchId r `max` m
                        end)%Z) None t.

(** [COALESCE(MAX(batch_id), 0) + 1]. *)
Definition next_batch_id_of (t : list SheetData.t) : Z :=
  (default 0 (max_batch_id t) + 1)%Z.

(** SELECT COALESCE(MAX(batch_id), 0) + 1 AS next_batch_id FROM tableName.
    The table is found under the name [sheet_data], the value of
    [tableName] in every call the service makes (its docstring: must match
    schema); other spellings that PostgreSQL would resolve to the same
    table are not modelled and are answered as unknown relations. *)
Definition pg_query (tableName : string) (w : Pg) : (Thrown + QueryResult) * Pg :=
  if down w (clock w) then (inl (Error "Connection terminated unexpectedly"), tick w)
  else if negb (String.eqb tableName "sheet_data") then
    (inl (Error ("relation " +:+ tableName +:+ " does not exist")), tick w)
  else if negb (int4 (next_batch_id_of (table w))) then
    (inl (Error "integer out of range"), tick w)
  else
    (inr {| rows := [{| next_batch_id := pretty (next_batch_id_of (table w)) |}] |},
     tick w).

Definition batch_row (r : SheetData.t) : Z * Z :=
  (SheetData.batchId r, SheetData.rowNumber r).
Definition new_batch_row (v : NewSheetData.t) : Z * Z :=
  (NewSheetData.batchId v, NewSheetData.rowNumber v).

(** CONSTRAINT unique_batch_row UNIQUE (batch_id, row_number). *)
Definition unique_batch_row (t : list SheetData.t) : Prop :=
  NoDup (batch_row <$> t).

(** The rows a statement adds: ids from the sequence, the payload as the
    column keeps it, the time of the statement as [created_at].  (A
    rejected statement leaves the sequence where it was; nothing below
    depends on the ids.) *)
Definition stamp (w : Pg) (vs : list NewSheetData.t) : list SheetData.t :=
  imap (λ k v, SheetData.mk (serial w + Z.of_nat k)%Z (NewSheetData.batchId v)
                 (NewSheetData.rowNumber v) (kept w (NewSheetData.data v))
                 (clock w)) vs.

(** [data JSONB NOT NULL]: a payload that is null, or missing, is the SQL
    NULL, which the column does not take. *)
Definition is_sql_null (payload : JsValue) : bool :=
  match payload with JUndefined | JNull => true | _ => false end.

(** The error of the first payload of a statement that [jsonb] refuses. *)
Definition jsonb_error (w : Pg) (vs : list NewSheetData.t) : option Thrown :=
  head (omap (λ v, if is_sql_null (NewSheetData.data v) then None
                   else refused w (NewSheetData.data v)) vs).

(** The [data] column takes this payload. *)
Definition takes (w : Pg) (payload : JsValue) : bool :=
  negb (is_sql_null payload)
  && (if refused w payload is Some _ then false else true).

(** One INSERT statement is atomic: all of its rows or none. *)
Definition pg_insert (vs : list NewSheetData.t) (w : Pg) : (Thrown + unit) * Pg :=
  if down w (clock w) then (inl (Error "Connection terminated unexpectedly"), tick w)
  else if negb (forallb (λ v, int4 (NewSheetData.batchId v)
                              && int4 (NewSheetData.rowNumber v)) vs) then
    (inl (Error "integer out of range"), tick w)
  else
    match jsonb_error w vs with
    | Some e => (inl e, tick w)
    | None =>
        if existsb (λ v, is_sql_null (NewSheetData.data v)) vs then
          (inl (Error ("null value in column data of relation sheet_data "
                       +:+ "violates not-null constraint")), tick w)
        else if negb (bool_decide
                        (NoDup ((batch_row <$> table w)
                                ++ (new_batch_row <$> vs)))) then
          (inl (Error "duplicate key value violates unique constraint unique_batch_row"),
           tick w)
        else
          (inr (),
           {| table := table w ++ stamp w vs;
              serial := (serial w + Z.of_nat (length vs))%Z;
              clock := S (clock w);
              down := down w;
              refused := refused w;
              kept := kept w |})
    end.

Definition by_row_number (a b : SheetData.t) : Prop :=
  (SheetData.rowNumber a ≤ SheetData.rowNumber b)%Z.

#[export] Instance by_row_number_dec : RelDecision by_row_number.
Proof. intros a b. unfold by_row_number. apply _. Defined.

(** SELECT * FROM sheet_data WHERE batch_id = $1 ORDER BY row_number ASC. *)
Definition select_batch (z : Z) (t : list SheetData.t) : list SheetData.t :=
  merge_sort by_row_number (filter (λ r, SheetData.batchId r = z) t).

Definition pg_select (batchId : number) (w : Pg)
    : (Thrown + list SheetData.t) * Pg :=
  if down w (clock w) then (inl (Error "Connection terminated unexpectedly"), tick w)
  else match number_to_Z batchId with
       | None => (inl (Error "invalid input syntax for type integer"), tick w)
       | Some z =>
           if int4 z then (inr (select_batch z (table w)), tick w)
           else (inl (Error "value out of range for type integer"), tick w)
       end.

#[export] Instance Pg_Database : Database Pg :=
  {| pool_query := pg_query; db_insert := pg_insert; db_select := pg_select |}.

(** *** The [jsonb] of the samples

    Good enough for the samples: a payload with U+0000 in a string or in a
    key is refused; an object is kept with its keys in jsonb's order
    (shorter keys first, keys of one length in byte order) and without the
    fields that have no value; what JSON cannot say (undefined in an array,
    NaN, an infinity) is kept as null. *)
Fixpoint holds_nul (s : string) : bool :=
  match s with
  | String a rest => (nat_of_ascii a =? 0) || holds_nul rest
  | EmptyString => false
  end.

Fixpoint mentions_nul (v : JsValue) : bool :=
  match v with
  | JStr s => holds_nul s
  | JArr items => existsb mentions_nul items
  | JObj fields =>
      existsb (λ field, let '(key, x) := field in holds_nul key || mentions_nul x)
              fields
  | _ => false
  end.

Definition sample_refused (v : JsValue) : option Thrown :=
  if mentions_nul v then Some (Error "unsupported Unicode escape sequence")
  else None.

(** jsonb's order of keys: shorter first, then by bytes. *)
Definition key_before (a b : string) : bool :=
  (String.length a <? String.length b)
  || ((String.length a =? String.length b) && String.leb a b).

Fixpoint insert_field (field : string * JsValue)
    (fields : list (string * JsValue)) : list (string * JsValue) :=
  match fields with
  | [] => [field]
  | next :: rest =>
      if key_before field.1 next.1 then field :: fields
      else next :: insert_field field rest
  end.

Fixpoint sample_kept (v : JsValue) : JsValue :=
  match v with
  | JUndefined | JNum NaN | JNum (Infinity _) => JNull
  | JArr items => JArr (sample_kept <$> items)
  | JObj fields =>
      JObj (foldr insert_field []
              (omap (λ field, let '(key, x) := field in
                              match x with
                              | JUndefined => None
                              | _ => Some (key, sample_kept x)
                              end) fields))
  | _ => v
  end.

(** A store with the given connection-failure schedule and no row. *)
Definition fresh (schedule : nat → bool) : State Pg :=
  {| world := {| table := []; serial := 1; clock := 0; down := schedule;
                 refused := sample_refused; kept := sample_kept |};
     trace := [] |}.

Definition always_up : nat → bool := λ _, false.

(** Down for every statement from the [n]-th on. *)
Definition down_from (n : nat) : nat → bool := λ k, n <=? k.

(** Down exactly for the statements numbered in [ks]. *)
Definition down_at (ks : list nat) : nat → bool := λ k, bool_decide (k ∈ ks).

(** Sample payloads: the rows [{"a": 1}], [{"a": 2}], [{"a": 3}] of the
    upload scenario. *)
Definition sample_row (n : Z) : SheetDataRow := JObj [("a", JNum (number_of_Z n))].
Definition three_rows : list SheetDataRow :=
  [sample_row 1; sample_row 2; sample_row 3].

(** A store whose only row was not written by this service: its batch id is
    negative. *)
Definition foreign_store : State Pg :=
  {| world := {| table := [SheetData.mk 1 (-4) 1 (sample_row 1) 0];
                 serial := 2; clock := 1; down := always_up;
                 refused := sample_refused; kept := sample_kept |};
     trace := [] |}.

(** A rendering of numbers good enough for the samples. *)
Definition sample_toString (n : number) : string :=
  match n with
  | NaN => "NaN"
  | Infinity true => "-Infinity"
  | Infinity false => "Infinity"
  | Finite q =>
      if Qeq_bool q (3 # 2) then "1.5" else pretty (Qnum q `div` Zpos (Qden q))%Z
  end.

(** The state in which a run ends. *)
Definition state_after {W A} (m : M (State W) A) (s : State W) : State W := (m s).2.


(** ** Reading a trace

    The counters of the writer are functions of the statements it sent:
    a settled insert adds its rows to [inserted]; a rejected single-row insert
    from the per-row loop adds one [RowError]. *)

Definition rows_inserted (ev : Event) : nat :=
  match failure ev, stmt ev with
  | None, SqlInsert vs => length vs
  | _, _ => 0
  end.

Definition inserted_of (evs : list Event) : nat := sum_list_with rows_inserted evs.

Definition row_error (sheetDataArray : list SheetDataRow) (ev : Event)
    : option RowError.t :=
  match site ev, failure ev with
  | Single i, Some e =>
      Some (RowError.mk i (i + 1) (default JUndefined (sheetDataArray !! i))
              (getErrorMessage e))
  | _, _ => None
  end.

Definition errors_of (sheetDataArray : list SheetDataRow) (evs : list Event)
    : list RowError.t :=
  omap (row_error sheetDataArray) evs.

Definition is_single (ev : Event) : bool :=
  match site ev with Single _ => true | _ => false end.

Definition is_bulk (ev : Event) : bool :=
  match site ev with Bulk => true | _ => false end.

Definition failed (ev : Event) : bool :=
  match failure ev with Some _ => true | None => false end.

Definition values_of (ev : Event) : list NewSheetData.t :=
  match stmt ev with SqlInsert vs => vs | _ => [] end.

Definition extend {W} (s : State W) (evs : list Event) (w : W) : State W :=
  {| world := w; trace := trace s ++ evs |}.

(** The inserts of [evs], sent in this order from world [w], lead to [w'],
    and each event records what the store answered. *)
Inductive inserts_sent {W} `{Database W} : W → list Event → W → Prop :=
| inserts_sent_nil w : inserts_sent w [] w
| inserts_sent_cons w from vs r w1 evs w2 :
    db_insert vs w = (r, w1) →
    inserts_sent w1 evs w2 →
    inserts_sent w ({| site := from; stmt := SqlInsert vs;
                       failure := failure_of r |} :: evs) w2.

(** The shape of the statements of the two loops of [insertRowsInChunks]. *)
Section Shapes.
Variable insertData : list NewSheetData.t.
Variable chunkSize : nat.

Definition chunk_start (chunkIndex : nat) : nat := chunkIndex * chunkSize.
Definition chunk_end (chunkIndex : nat) : nat :=
  (chunk_start chunkIndex + chunkSize) `min` length insertData.
Definition chunk_at (chunkIndex : nat) : list NewSheetData.t :=
  slice (chunk_start chunkIndex) (chunk_end chunkIndex) insertData.

(** The number of rows in the chunks before [chunkIndex]. *)
Definition below (chunkIndex : nat) : nat :=
  (chunkIndex * chunkSize) `min` length insertData.

(** [trips] single-row inserts, for the rows at [i], [i+1], ... *)
Inductive row_events : nat → nat → list Event → Prop :=
| row_events_done i : row_events 0 i []
| row_events_step trips i v out evs :
    insertData !! i = Some v →
    row_events trips (S i) evs →
    row_events (S trips) i
      ({| site := Single i; stmt := SqlInsert [v]; failure := out |} :: evs).

(** [trips] chunks from [chunkIndex] on: one multi-row insert per chunk,
    followed by the single-row inserts of that chunk when it was rejected. *)
Inductive chunk_events : nat → nat → list Event → Prop :=
| chunk_events_done k : chunk_events 0 k []
| chunk_events_ok trips k evs :
    chunk_events trips (S k) evs →
    chunk_events (S trips) k
      ({| site := Chunk (k + 1); stmt := SqlInsert (chunk_at k);
          failure := None |} :: evs)
| chunk_events_rejected trips k e revs evs :
    row_events (chunk_end k - chunk_start k) (chunk_start k) revs →
    chunk_events trips (S k) evs →
    chunk_events (S trips) k
      ({| site := Chunk (k + 1); stmt := SqlInsert (chunk_at k);
          failure := Some e |} :: revs ++ evs).
End Shapes.


(** The statements of the writer of [storeSheetData] once the batch id is
    known: chunks only above the threshold, else the bulk insert and, when
    it is rejected, the chunks. *)
Definition chunked (batchId : Z) (rows : list SheetDataRow) (evs : list Event) : Prop :=
  chunk_events (prepare batchId rows) CHUNK_SIZE
    (ceil_div (length rows) CHUNK_SIZE) 0 evs.

Definition writer_events (batchId : Z) (rows : list SheetDataRow)
    (evs : list Event) : Prop :=
  if LARGE_DATASET <? length rows then chunked batchId rows evs
  else ∃ out rest,
      evs = {| site := Bulk; stmt := SqlInsert (prepare batchId rows);
               failure := out |} :: rest
      ∧ match out with
        | None => rest = []
        | Some _ => chunked batchId rows rest
        end.

(** Sequential use of the module on the relational store. *)
Inductive later (toString : number → string) : State Pg → State Pg → Prop :=
| later_now s : later toString s s
| later_upload s s' sheetData tableName :
    later toString s s' →
    later toString s (state_after (storeSheetData sheetData tableName) s')
| later_fetch s s' batchId :
    later toString s s' →
    later toString s (state_after (fetchBatchData toString batchId) s').

(** ** The rest of the service

    [middleware/errorHandler.ts], the two remaining functions of
    [db/index.ts] that read the store ([testConnection], [getAllBatchIds])
    and the three GET routes of [index.ts].  Their statements go through a
    second interface, [Pool]; they are not recorded in the trace, which
    follows the allocator, the writer and the reader only. *)

(** [haystack.includes(needle)]. *)
Fixpoint includes (needle haystack : string) : bool :=
  String.prefix needle haystack
  || match haystack with
     | String _ rest => includes needle rest
     | EmptyString => false
     end.

(** *** errorHandler and asyncHandler *)

Definition errorHandler (err : Thrown) : Response :=
  let errorMessage := getErrorMessage err in
  match err with
  | AppError message statusCode =>
      sendErrorResponse message statusCode (Some message)
  | Error _ =>
      if includes "ECONNREFUSED" errorMessage || includes "connection" errorMessage
      then
        sendErrorResponse "Database connection failed" 503
          (Some "Unable to connect to the database. Please check your database configuration.")
      else if includes "validation" errorMessage || includes "invalid" errorMessage
      then sendErrorResponse "Validation error" 400 (Some errorMessage)
      else
        sendErrorResponse "Internal server error" 500
          (Some "An unexpected error occurred. Please try again later.")
  | ThrownString _ | ThrownOther =>
      sendErrorResponse "Internal server error" 500
        (Some "An unexpected error occurred. Please try again later.")
  end.

(** [Promise.resolve(fn(req, res, next)).catch(next)], with [errorHandler]
    as the error middleware that [next(err)] reaches. *)
Definition asyncHandler {S} (fn : M S Response) : S → Response * S :=
  λ s, match fn s with
       | (inr response, s') => (response, s')
       | (inl err, s') => (errorHandler err, s')
       end.

(** *** testConnection and getAllBatchIds *)

Record BatchIdCell := { batch_id : Z }.

(** [pool.query("SELECT NOW()")] and
    [pool.query("SELECT DISTINCT batch_id FROM sheet_data ORDER BY batch_id DESC")];
    the second resolves with its [rows], or without any ([None]). *)
Class Pool (W : Type) := {
  pool_now : W → (Thrown + unit) * W;
  pool_batch_ids : W → (Thrown + option (list BatchIdCell)) * W
}.

Section Service.
Context {W : Type} `{Database W} `{Pool W}.

Definition testConnection : M (State W) bool :=
  λ s, let '(queryResult, w) := pool_now (world s) in
       (inr (if queryResult is inr _ then true else false),
        {| world := w; trace := trace s |}).

Definition getAllBatchIds : M (State W) (list Z) :=
  λ s, let '(settled, w) := pool_batch_ids (world s) in
       let s' := {| world := w; trace := trace s |} in
       match settled with
       | inl error =>
           (inl (AppError (formatErrorMessage "Failed to fetch batch IDs"
                             (getErrorMessage error)) 500), s')
       | inr None => (inr [], s')
       | inr (Some rows) => (inr (batch_id <$> rows), s')
       end.

(** *** GET /health *)
Definition get_health : M (State W) Response :=
  dbConnected ← testConnection;
  let status := if dbConnected : bool then "healthy" else "unhealthy" in
  let databaseStatus := if dbConnected : bool then "connected" else "disconnected" in
  mret (sendSuccessResponse
          (JObj [("status", JStr status); ("database", JStr databaseStatus)])
          (if dbConnected : bool then 200 else 503) None).

(** *** GET /api/batches *)
Definition get_batches : M (State W) Response :=
  batchIds ← getAllBatchIds;
  mret (sendSuccessResponse
          (JObj [("count", JNum (number_of_Z (Z.of_nat (length batchIds))));
                 ("batchIds", JArr ((λ b, JNum (number_of_Z b)) <$> batchIds))])
          200 None).

(** *** GET /api/batch/:batchId

    The rendering of a number in a message and the JSON form of a selected
    row (with its date) are parameters. *)
Section BatchRoute.
Variable Number_toString : number → string.
Variable SheetData_toJSON : SheetData.t → JsValue.

Definition get_batch (batchIdParam : string) : M (State W) Response :=
  let batchId := match parseInt batchIdParam with
                 | Some z => number_of_Z z
                 | None => NaN
                 end in
  if isNaN batchId || number_lt batchId (number_of_Z 1) then
    mret (sendErrorResponse
            ("Invalid batchId: " +:+ batchIdParam +:+ ". Must be a positive number.")
            400 None)
  else
    rows ← fetchBatchData Number_toString batchId;
    if length rows =? 0 then
      mret (sendErrorResponse
              ("No data found for batch_id: " +:+ Number_toString batchId)
              404 None)
    else
      mret (sendSuccessResponse
              (JObj [("batchId", JNum batchId);
                     ("count", JNum (number_of_Z (Z.of_nat (length rows))));
                     ("data", JArr (SheetData_toJSON <$> rows))])
              200 None).
End BatchRoute.
End Service.

(** *** The relational store as a [Pool] *)

Definition descending (a b : Z) : Prop := (b ≤ a)%Z.

#[export] Instance descending_dec : RelDecision descending.
Proof. intros a b. unfold descending. apply _. Defined.

(** SELECT DISTINCT batch_id FROM sheet_data ORDER BY batch_id DESC. *)
Definition distinct_batch_ids (t : list SheetData.t) : list Z :=
  merge_sort descending (remove_dups (SheetData.batchId <$> t)).

Definition pg_now (w : Pg) : (Thrown + unit) * Pg :=
  if down w (clock w) then (inl (Error "Connection terminated unexpectedly"), tick w)
  else (inr (), tick w).

Definition pg_batch_ids (w : Pg) : (Thrown + option (list BatchIdCell)) * Pg :=
  if down w (clock w) then (inl (Error "Connection terminated unexpectedly"), tick w)
  else (inr (Some (Build_BatchIdCell <$> distinct_batch_ids (table w))), tick w).

#[export] Instance Pg_Pool : Pool Pg :=
  {| pool_now := pg_now; pool_batch_ids := pg_batch_ids |}.

(** The rows of the inserts that settled, and the rows of the single-row
    inserts that were rejected, in the order of the statements. *)
Definition settled_values (evs : list Event) : list NewSheetData.t :=
  evs ≫= λ ev, if failed ev then [] else values_of ev.

Definition rejected_rows (evs : list Event) : list NewSheetData.t :=
  evs ≫= λ ev, if is_single ev && failed ev then values_of ev else [].

(** The numbers of the chunk inserts of a trace, the rows of its rejected
    chunk inserts, and the rows of its single-row inserts, in the order of
    the statements. *)
Definition chunk_numbers (evs : list Event) : list nat :=
  omap (λ ev, match site ev with Chunk n => Some n | _ => None end) evs.

Definition retried_rows (evs : list Event) : list NewSheetData.t :=
  evs ≫= λ ev, match site ev with
               | Chunk _ => if failed ev then values_of ev else []
               | _ => []
               end.

Definition single_rows (evs : list Event) : list NewSheetData.t :=
  evs ≫= λ ev, if is_single ev then values_of ev else [].

(** A top-level field of a response body. *)
Definition body_field (key : string) (response : Response) : option JsValue :=
  match body response with
  | JObj fields => get_field key fields
  | _ => None
  end.

(** A field of the [data] object of a response body. *)
Definition data_field (key : string) (response : Response) : option JsValue :=
  match body_field "data" response with
  | Some (JObj fields) => get_field key fields
  | _ => None
  end.

(** [needle] occurs somewhere in [haystack]. *)
Definition mentions (needle haystack : string) : Prop :=
  ∃ before after, haystack = before +:+ needle +:+ after.

(** The [(rowNumber, data)] pair of a selected row, and the pair a prepared
    row gives once the column of [w] has taken it. *)
Definition stored_cell (r : SheetData.t) : Z * JsValue :=
  (SheetData.rowNumber r, SheetData.data r).
Definition kept_cell (w : Pg) (v : NewSheetData.t) : Z * JsValue :=
  (NewSheetData.rowNumber v, kept w (NewSheetData.data v)).

(** A row given at index [i] of an upload, as it is read back from [w]. *)
Definition read_back (w : Pg) (i : nat) (row : SheetDataRow) : Z * JsValue :=
  (Z.of_nat (i + 1), kept w row).

(** * Properties *)

(** ** The scenarios of the upload route, on an empty store *)

(** Three rows on a healthy store: 200, batch 1, three rows inserted; the
    batch then reads back as rows 1, 2, 3. *)
Example upload_three_rows :
  let run := upload_sheet_data (JArr three_rows) (fresh always_up) in
  run.1 = inr {| status := 200;
                 body := JObj [("success", JBool true);
                               ("message",
                                JStr "Successfully stored 3 rows to database");
                               ("data",
                                JObj [("batchId", JNum (number_of_Z 1));
                                      ("inserted", JNum (number_of_Z 3))])] |}
  ∧ match (fetchBatchData sample_toString (number_of_Z 1) run.2).1 with
    | inr rows => SheetData.rowNumber <$> rows = [1; 2; 3]%Z
    | inl _ => False
    end.
Proof. by vm_compute. Qed.

(** The bulk and chunk inserts and the insert of row 2 are rejected: 207,
    two rows inserted, one error for index 1, row number 2. *)
Example upload_with_one_rejected_row :
  (storeSheetData (JArr three_rows) "sheet_data" (fresh (down_at [1; 2; 4]))).1
  = inr (StoreSheetDataResult.mk true 1 2
           [RowError.mk 1 2 (sample_row 2) "Connection terminated unexpectedly"])
  ∧ match (upload_sheet_data (JArr three_rows) (fresh (down_at [1; 2; 4]))).1 with
    | inr response => status response = 207
    | inl _ => False
    end.
Proof. by vm_compute. Qed.

(** Every insert is rejected: the call still succeeds, with nothing inserted
    and one error per row. *)
Example upload_with_every_row_rejected :
  match (storeSheetData (JArr three_rows) "sheet_data" (fresh (down_from 1))).1 with
  | inr result =>
      StoreSheetDataResult.success result = true
      ∧ StoreSheetDataResult.inserted result = 0
      ∧ RowError.rowNumber <$> StoreSheetDataResult.errors result = [1; 2; 3]
  | inl _ => False
  end.
Proof. by vm_compute. Qed.

(** An empty array is refused with 400 before anything is sent. *)
Example upload_empty_array :
  upload_sheet_data (JArr []) (fresh always_up)
  = (inr (sendErrorResponse "sheetData array cannot be empty" 400 None),
     fresh always_up).
Proof. reflexivity. Qed.

(** A null row among the rows, the store answering every statement: the
    bulk insert and the chunk insert are rejected by the NOT NULL column,
    the rows go in one by one, and the null row is reported: 207, two rows
    inserted, one error for row number 2. *)
Example upload_with_a_null_row :
  let rows := [sample_row 1; JNull; sample_row 3] in
  match (storeSheetData (JArr rows) "sheet_data" (fresh always_up)).1 with
  | inr result =>
      StoreSheetDataResult.inserted result = 2
      ∧ RowError.rowNumber <$> StoreSheetDataResult.errors result = [2]
  | inl _ => False
  end
  ∧ match (upload_sheet_data (JArr rows) (fresh always_up)).1 with
    | inr response => status response = 207
    | inl _ => False
    end.
Proof. by vm_compute. Qed.

(** A row with U+0000 in a string is refused by the column of the samples
    and reported in the same way. *)
Example upload_with_a_nul_character :
  let rows := [JObj [("a", JStr (String Ascii.zero "x"))]] in
  match (storeSheetData (JArr rows) "sheet_data" (fresh always_up)).1 with
  | inr result =>
      StoreSheetDataResult.inserted result = 0
      ∧ StoreSheetDataResult.errors result
        = [RowError.mk 0 1 (JObj [("a", JStr (String Ascii.zero "x"))])
             "unsupported Unicode escape sequence"]
  | inl _ => False
  end.
Proof. by vm_compute. Qed.

(** A payload is read back as the column keeps it, not as it was written:
    [{"b": 1, "a": 2}] comes back with its keys in jsonb's order. *)
Example payload_read_back_in_column_order :
  let row := JObj [("b", JNum (number_of_Z 1)); ("a", JNum (number_of_Z 2))] in
  let run := storeSheetData (JArr [row]) "sheet_data" (fresh always_up) in
  match (fetchBatchData sample_toString (number_of_Z 1) run.2).1 with
  | inr rows =>
      SheetData.data <$> rows
      = [JObj [("a", JNum (number_of_Z 2)); ("b", JNum (number_of_Z 1))]]
  | inl _ => False
  end.
Proof. by vm_compute. Qed.

(** ** Reading a trace: basic facts *)

Lemma inserted_of_app evs1 evs2 :
  inserted_of (evs1 ++ evs2) = inserted_of evs1 + inserted_of evs2.
Proof. apply sum_list_with_app. Qed.

Lemma errors_of_app rows evs1 evs2 :
  errors_of rows (evs1 ++ evs2) = errors_of rows evs1 ++ errors_of rows evs2.
Proof. apply omap_app. Qed.

Lemma extend_extend {W} (s : State W) evs1 w1 evs2 w2 :
  extend (extend s evs1 w1) evs2 w2 = extend s (evs1 ++ evs2) w2.
Proof. unfold extend; simpl. by rewrite app_assoc. Qed.

Lemma inserts_sent_app {W} `{Database W} w evs1 w1 evs2 w2 :
  inserts_sent w evs1 w1 → inserts_sent w1 evs2 w2 →
  inserts_sent w (evs1 ++ evs2) w2.
Proof.
  induction 1 as [|w from vs r w1 evs w1' Hins _ IH]; intros Hrest; [done|].
  simpl. econstructor; [exact Hins|]. by apply IH.
Qed.

(** ** The two loops of [insertRowsInChunks] *)

Section Loops.
Context {W : Type} `{Database W}.
Variable insertData : list NewSheetData.t.
Variable sheetDataArray : list SheetDataRow.
Variable chunkSize : nat.

Lemma await_insert_run from vs (s : State W) :
  ∃ r w1, db_insert vs (world s) = (r, w1)
    ∧ await_insert from vs s
      = (inr r, extend s [{| site := from; stmt := SqlInsert vs;
                             failure := failure_of r |}] w1).
Proof.
  unfold await_insert. destruct (db_insert vs (world s)) as [r w1]. eauto.
Qed.

(** The per-row loop never throws while its indices stay in range; its
    result and final state are read off the statements it sent. *)
Lemma row_loop_run trips : ∀ i insertedCount errors (s : State W),
  (0 < trips → i + trips ≤ length insertData) →
  ∃ evs w',
    row_loop insertData sheetDataArray trips i insertedCount errors s
    = (inr (insertedCount + inserted_of evs,
            errors ++ errors_of sheetDataArray evs), extend s evs w')
    ∧ inserts_sent (world s) evs w'
    ∧ row_events insertData trips i evs.
Proof.
  induction trips as [|trips IH]; intros i c errs s Hle; simpl.
  { exists [], (world s). unfold extend. destruct s; simpl.
    rewrite !app_nil_r, Nat.add_0_r. repeat split; constructor. }
  destruct (lookup_lt_is_Some_2 insertData i) as [v Hv]; [lia|].
  rewrite Hv.
  destruct (await_insert_run (Single i) [v] s) as (r & w1 & Hdb & Hrun).
  unfold mbind, M_bind. rewrite Hrun.
  set (ev := {| site := Single i; stmt := SqlInsert [v];
                failure := failure_of r |}) in *.
  destruct r as [e|[]]; cbn [failure_of] in ev.
  - destruct (IH (S i) c
                (errs ++ [RowError.mk i (i + 1)
                            (default JUndefined (sheetDataArray !! i))
                            (getErrorMessage e)])
                (extend s [ev] w1))
      as (evs & w' & Hloop & Hsent & Hshape); [lia|].
    exists (ev :: evs), w'. rewrite Hloop, extend_extend.
    split; [|split].
    + change (inserted_of (ev :: evs)) with (0 + inserted_of evs).
      change (errors_of sheetDataArray (ev :: evs))
        with (RowError.mk i (i + 1)
                (default JUndefined (sheetDataArray !! i))
                (getErrorMessage e) :: errors_of sheetDataArray evs).
      by rewrite <-app_assoc.
    + by apply (inserts_sent_cons _ (Single i) [v] (inl e) w1).
    + by constructor.
  - destruct (IH (S i) (S c) errs (extend s [ev] w1))
      as (evs & w' & Hloop & Hsent & Hshape); [lia|].
    exists (ev :: evs), w'. rewrite Hloop, extend_extend.
    split; [|split].
    + change (inserted_of (ev :: evs)) with (1 + inserted_of evs).
      change (errors_of sheetDataArray (ev :: evs))
        with (errors_of sheetDataArray evs).
      replace (c + (1 + inserted_of evs)) with (S c + inserted_of evs) by lia.
      done.
    + by apply (inserts_sent_cons _ (Single i) [v] (inr ()) w1).
    + by constructor.
Qed.

Lemma chunk_bounds k :
  0 < chunk_end insertData chunkSize k - chunk_start chunkSize k →
  chunk_start chunkSize k + (chunk_end insertData chunkSize k
                             - chunk_start chunkSize k) ≤ length insertData.
Proof. unfold chunk_end, chunk_start. lia. Qed.

Lemma chunk_loop_run trips : ∀ k insertedCount errors (s : State W),
  ∃ evs w',
    chunk_loop insertData sheetDataArray chunkSize trips k insertedCount errors s
    = (inr (insertedCount + inserted_of evs,
            errors ++ errors_of sheetDataArray evs), extend s evs w')
    ∧ inserts_sent (world s) evs w'
    ∧ chunk_events insertData chunkSize trips k evs.
Proof.
  induction trips as [|trips IH]; intros k c errs s; simpl.
  { exists [], (world s). unfold extend. destruct s; simpl.
    rewrite !app_nil_r, Nat.add_0_r. repeat split; constructor. }
  fold (chunk_start chunkSize k). fold (chunk_end insertData chunkSize k).
  fold (chunk_at insertData chunkSize k).
  destruct (await_insert_run (Chunk (k + 1)) (chunk_at insertData chunkSize k) s)
    as (r & w1 & Hdb & Hrun).
  unfold mbind, M_bind. rewrite Hrun.
  set (ev := {| site := Chunk (k + 1);
                stmt := SqlInsert (chunk_at insertData chunkSize k);
                failure := failure_of r |}) in *.
  destruct r as [e|[]]; cbn [failure_of] in ev.
  - destruct (row_loop_run (chunk_end insertData chunkSize k
                            - chunk_start chunkSize k)
                (chunk_start chunkSize k) c errs
                (extend s [ev] w1) (chunk_bounds k))
      as (revs & w2 & Hrows & Hsent1 & Hshape1).
    rewrite Hrows.
    destruct (IH (S k) (c + inserted_of revs)
                (errs ++ errors_of sheetDataArray revs)
                (extend (extend s [ev] w1) revs w2))
      as (evs & w' & Hloop & Hsent & Hshape).
    exists (ev :: revs ++ evs), w'. rewrite Hloop, !extend_extend.
    split; [|split].
    + change (inserted_of (ev :: revs ++ evs))
        with (0 + inserted_of (revs ++ evs)).
      change (errors_of sheetDataArray (ev :: revs ++ evs))
        with (errors_of sheetDataArray (revs ++ evs)).
      rewrite inserted_of_app, errors_of_app, (app_assoc errs).
      replace (c + (0 + (inserted_of revs + inserted_of evs)))
        with (c + inserted_of revs + inserted_of evs) by lia.
      done.
    + apply (inserts_sent_cons _ (Chunk (k + 1)) _ (inl e) w1); [done|].
      by eapply inserts_sent_app.
    + by constructor.
  - destruct (IH (S k) (c + length (chunk_at insertData chunkSize k)) errs
                (extend s [ev] w1))
      as (evs & w' & Hloop & Hsent & Hshape).
    exists (ev :: evs), w'. rewrite Hloop, extend_extend.
    split; [|split].
    + change (inserted_of (ev :: evs))
        with (length (chunk_at insertData chunkSize k) + inserted_of evs).
      change (errors_of sheetDataArray (ev :: evs))
        with (errors_of sheetDataArray evs).
      by rewrite Nat.add_assoc.
    + by apply (inserts_sent_cons _ (Chunk (k + 1)) _ (inr ()) w1).
    + by constructor.
Qed.
End Loops.

(** ** The allocator and the writer as a whole *)

Section Writer.
Context {W : Type} `{Database W}.

(** The allocator sends exactly one statement. *)
Lemma getNextBatchId_run tableName (s : State W) :
  ∃ r w1 out,
    pool_query tableName (world s) = (r, w1)
    ∧ getNextBatchId tableName s
      = (out, extend s [{| site := Allocate; stmt := SqlNextBatchId tableName;
                           failure := failure_of r |}] w1).
Proof.
  unfold getNextBatchId, mbind, M_bind, await_query.
  destruct (pool_query tableName (world s)) as [r w1].
  exists r, w1. destruct r as [e|res]; [by eexists|].
  destruct (rows res !! 0) as [row0|]; [|by eexists].
  destruct (parseInt (next_batch_id row0)); by eexists.
Qed.

Lemma prepare_length batchId rows : length (prepare batchId rows) = length rows.
Proof. apply length_imap. Qed.

(** Once the batch id is allocated the writer cannot throw; its result is
    read off the statements it sent, and these have the writer's shape. *)
Lemma storeSheetData_run rows tableName (s : State W) :
  rows ≠ [] →
  match getNextBatchId tableName s with
  | (inl e, s1) => storeSheetData (JArr rows) tableName s = (inl e, s1)
  | (inr b, s1) =>
      ∃ evs w',
        storeSheetData (JArr rows) tableName s
        = (inr (StoreSheetDataResult.mk true b (inserted_of evs)
                  (errors_of rows evs)), extend s1 evs w')
        ∧ inserts_sent (world s1) evs w'
        ∧ writer_events b rows evs
  end.
Proof.
  intros Hne. unfold storeSheetData.
  assert (Hmatch : ∀ (X : Type) (a b : X),
             match rows with [] => a | _ :: _ => b end = b)
    by (intros; by destruct rows).
  rewrite Hmatch. unfold mbind, M_bind.
  destruct (getNextBatchId tableName s) as [[e|b] s1]; [done|].
  unfold writer_events, chunked, insertRowsInChunks.
  rewrite prepare_length.
  destruct (LARGE_DATASET <? length rows).
  - destruct (chunk_loop_run (prepare b rows) rows CHUNK_SIZE
                (ceil_div (length rows) CHUNK_SIZE) 0 0 [] s1)
      as (evs & w' & Hrun & Hsent & Hshape).
    exists evs, w'. by rewrite Hrun.
  - destruct (await_insert_run Bulk (prepare b rows) s1)
      as (r & w1 & Hdb & Hrun).
    rewrite Hrun.
    set (ev := {| site := Bulk; stmt := SqlInsert (prepare b rows);
                  failure := failure_of r |}) in *.
    destruct r as [e|[]]; cbn [failure_of] in ev.
    + destruct (chunk_loop_run (prepare b rows) rows CHUNK_SIZE
                  (ceil_div (length rows) CHUNK_SIZE) 0 0 [] (extend s1 [ev] w1))
        as (evs & w' & Hrun' & Hsent & Hshape).
      exists (ev :: evs), w'. rewrite Hrun', extend_extend.
      split; [done|]. split.
      * by apply (inserts_sent_cons _ Bulk _ (inl e) w1).
      * by exists (Some e), evs.
    + exists [ev], w1. split; [|split].
      * change (inserted_of [ev]) with (length (prepare b rows) + 0).
        change (errors_of rows [ev]) with (@nil RowError.t).
        by rewrite prepare_length, Nat.add_0_r.
      * apply (inserts_sent_cons _ Bulk _ (inr ()) w1); [done|constructor].
      * by exists None, [].
Qed.
End Writer.

(** ** What the shape of the writer's statements implies *)

Lemma ceil_div_covers len chunkSize :
  0 < chunkSize → len ≤ ceil_div len chunkSize * chunkSize.
Proof.
  intros Hpos. unfold ceil_div.
  pose proof (Nat.div_mod_eq (len + chunkSize - 1) chunkSize) as Hdiv.
  pose proof (Nat.mod_upper_bound (len + chunkSize - 1) chunkSize) as Hmod.
  nia.
Qed.


Lemma slice_all {A} (l : list A) n : length l ≤ n → slice 0 n l = l.
Proof. intros Hle. unfold slice. rewrite drop_0, take_ge; [done|lia]. Qed.


Lemma no_error_without_rejected_single rows evs :
  Forall (λ ev, is_single ev = true → failed ev = false) evs →
  errors_of rows evs = [].
Proof.
  induction 1 as [|ev evs Hev _ IH]; [done|].
  change (errors_of rows (ev :: evs))
    with (match row_error rows ev with
          | Some y => y :: errors_of rows evs
          | None => errors_of rows evs
          end).
  rewrite IH. unfold row_error, is_single, failed in *.
  destruct (site ev); try done. destruct (failure ev); [|done].
  by specialize (Hev eq_refl).
Qed.

Lemma nothing_inserted_when_all_rejected evs :
  Forall (λ ev, failed ev = true) evs → inserted_of evs = 0.
Proof.
  induction 1 as [|ev evs Hev _ IH]; [done|].
  change (inserted_of (ev :: evs)) with (rows_inserted ev + inserted_of evs).
  rewrite IH. unfold rows_inserted, failed in *. by destruct (failure ev).
Qed.

(** Every [RowError] names its row: index, number and payload agree. *)
Lemma errors_of_entries rows evs e :
  e ∈ errors_of rows evs →
  RowError.rowNumber e = RowError.rowIndex e + 1
  ∧ RowError.rowData e = default JUndefined (rows !! RowError.rowIndex e).
Proof.
  unfold errors_of. rewrite list_elem_of_omap. intros (ev & _ & Hev).
  unfold row_error in Hev. destruct (site ev); try done.
  destruct (failure ev); [|done]. by injection Hev as <-.
Qed.

Section ShapeFacts.
Variable insertData : list NewSheetData.t.
Variable chunkSize : nat.
Variable rows : list SheetDataRow.
Hypothesis chunkSize_pos : 0 < chunkSize.

Abbreviation chunk_start := (chunk_start chunkSize).
Abbreviation chunk_end := (chunk_end insertData chunkSize).
Abbreviation chunk_at := (chunk_at insertData chunkSize).
Abbreviation below := (below insertData chunkSize).

Lemma chunk_span k : chunk_end k - chunk_start k = below (S k) - below k.
Proof. unfold chunk_end, chunk_start, below. lia. Qed.

Lemma chunk_at_length k : length (chunk_at k) = below (S k) - below k.
Proof.
  unfold chunk_at, slice. rewrite length_take, length_drop, chunk_span.
  unfold chunk_start, below. lia.
Qed.

Lemma below_mono k : below k ≤ below (S k).
Proof. unfold below. lia. Qed.

Lemma below_total : below (ceil_div (length insertData) chunkSize) = length insertData.
Proof.
  unfold below.
  pose proof (ceil_div_covers (length insertData) chunkSize chunkSize_pos). lia.
Qed.

Lemma below_add_mono k trips : below k ≤ below (k + trips).
Proof. unfold below. nia. Qed.

(** Each row of the per-row loop is counted once. *)
Lemma row_events_count trips i evs :
  row_events insertData trips i evs →
  inserted_of evs + length (errors_of rows evs) = trips.
Proof.
  induction 1 as [|trips i v out evs Hv _ IH]; [done|].
  destruct out as [e|].
  - change (inserted_of (_ :: evs)) with (0 + inserted_of evs).
    change (length (errors_of rows (_ :: evs)))
      with (S (length (errors_of rows evs))). lia.
  - change (inserted_of (_ :: evs)) with (1 + inserted_of evs).
    change (errors_of rows (_ :: evs)) with (errors_of rows evs). lia.
Qed.

(** Each row of each chunk is counted once. *)
Lemma chunk_events_count trips k evs :
  chunk_events insertData chunkSize trips k evs →
  inserted_of evs + length (errors_of rows evs) = below (k + trips) - below k.
Proof.
  induction 1 as [k|trips k evs _ IH|trips k e revs evs Hrows _ IH].
  - rewrite (Nat.add_0_r k). unfold inserted_of, errors_of; simpl. lia.
  - change (inserted_of (_ :: evs)) with (length (chunk_at k) + inserted_of evs).
    change (errors_of rows (_ :: evs)) with (errors_of rows evs).
    rewrite chunk_at_length.
    replace (k + S trips) with (S k + trips) by lia.
    pose proof (below_mono k). pose proof (below_add_mono (S k) trips). lia.
  - change (inserted_of (_ :: revs ++ evs)) with (0 + inserted_of (revs ++ evs)).
    change (errors_of rows (_ :: revs ++ evs)) with (errors_of rows (revs ++ evs)).
    rewrite inserted_of_app, errors_of_app, length_app.
    apply row_events_count in Hrows. rewrite chunk_span in Hrows.
    replace (k + S trips) with (S k + trips) by lia.
    pose proof (below_mono k). pose proof (below_add_mono (S k) trips). lia.
Qed.

(** Statements of the chunked writer: never from the bulk site, never more
    than [chunkSize] rows. *)
Lemma row_events_small trips i evs :
  row_events insertData trips i evs →
  Forall (λ ev, is_bulk ev = false ∧ length (values_of ev) ≤ chunkSize) evs.
Proof.
  induction 1 as [|trips i v out evs Hv _ IH]; constructor; [|done].
  split; [done|]. simpl. lia.
Qed.

Lemma chunk_events_small trips k evs :
  chunk_events insertData chunkSize trips k evs →
  Forall (λ ev, is_bulk ev = false ∧ length (values_of ev) ≤ chunkSize) evs.
Proof.
  assert (Hlen : ∀ k, length (chunk_at k) ≤ chunkSize).
  { intros j. rewrite chunk_at_length. unfold below. lia. }
  induction 1 as [k|trips k evs _ IH|trips k e revs evs Hrows _ IH].
  - constructor.
  - constructor; [|done]. split; [done|]. apply Hlen.
  - constructor.
    + split; [done|]. apply Hlen.
    + apply Forall_app. split; [|done]. by eapply row_events_small.
Qed.
Lemma row_events_elem trips i evs ev :
  row_events insertData trips i evs → ev ∈ evs →
  ∃ j v out,
    i ≤ j < i + trips ∧ insertData !! j = Some v
    ∧ ev = {| site := Single j; stmt := SqlInsert [v]; failure := out |}.
Proof.
  induction 1 as [|trips i v out evs Hv _ IH]; intros Hin.
  - by apply elem_of_nil in Hin.
  - apply elem_of_cons in Hin as [->|Hin].
    + exists i, v, out. split; [lia|done].
    + destruct (IH Hin) as (j & v' & out' & Hj & Hv' & ->).
      exists j, v', out'. split; [lia|done].
Qed.

(** The rows of the statements all come from [insertData]. *)
Lemma chunk_events_values trips k evs :
  chunk_events insertData chunkSize trips k evs →
  Forall (λ ev, values_of ev ⊆ insertData) evs.
Proof.
  assert (Hsub : ∀ k, chunk_at k ⊆ insertData).
  { intros j. unfold chunk_at, slice.
    etrans; [apply subseteq_take|apply subseteq_drop]. }
  induction 1 as [k|trips k evs _ IH|trips k e revs evs Hrows _ IH].
  - constructor.
  - constructor; [apply Hsub|done].
  - constructor; [apply Hsub|]. apply Forall_app. split; [|done].
    apply Forall_forall. intros ev Hin.
    destruct (row_events_elem _ _ _ _ Hrows Hin) as (j & v & out & _ & Hv & ->).
    simpl. intros x Hx. apply list_elem_of_singleton in Hx as ->.
    apply list_elem_of_lookup. by exists j.
Qed.


(** When every statement is rejected, the errors list the rows in order. *)
Lemma row_events_rejected_indices trips i evs :
  row_events insertData trips i evs →
  Forall (λ ev, failed ev = true) evs →
  RowError.rowIndex <$> errors_of rows evs = seq i trips.
Proof.
  induction 1 as [|trips i v out evs Hv _ IH]; intros Hall; [done|].
  apply Forall_cons in Hall as [Hev Hall].
  destruct out as [e|]; [|done].
  change (errors_of rows (_ :: evs))
    with (RowError.mk i (i + 1) (default JUndefined (rows !! i))
            (getErrorMessage e) :: errors_of rows evs).
  rewrite fmap_cons, IH by done. done.
Qed.

Lemma chunk_events_rejected_indices trips k evs :
  chunk_events insertData chunkSize trips k evs →
  Forall (λ ev, failed ev = true) evs →
  RowError.rowIndex <$> errors_of rows evs
  = seq (below k) (below (k + trips) - below k).
Proof.
  induction 1 as [k|trips k evs _ IH|trips k e revs evs Hrows _ IH];
    intros Hall.
  - rewrite (Nat.add_0_r k), Nat.sub_diag. done.
  - by apply Forall_cons in Hall as [? _].
  - apply Forall_cons in Hall as [_ Hall].
    apply Forall_app in Hall as [Hall1 Hall2].
    change (errors_of rows (_ :: revs ++ evs)) with (errors_of rows (revs ++ evs)).
    rewrite errors_of_app, fmap_app, IH by done.
    rewrite (row_events_rejected_indices _ _ _ Hrows Hall1), chunk_span.
    replace (k + S trips) with (S k + trips) by lia.
    pose proof (below_mono k) as Hk.
    pose proof (below_add_mono (S k) trips) as Hk'.
    destruct (decide (below (S k) = below k)) as [Heq|Hne].
    + rewrite Heq, Nat.sub_diag. done.
    + assert (chunk_start k = below k) as ->
        by (unfold chunk_start, below in *; lia).
      replace (below (S k + trips) - below k)
        with ((below (S k) - below k) + (below (S k + trips) - below (S k)))
        by lia.
      rewrite seq_app. do 2 f_equal. lia.
Qed.
End ShapeFacts.

(** Rows prepared for batch [b] carry [b] and their 1-based position. *)
Lemma prepare_lookup b rows i v :
  prepare b rows !! i = Some v →
  NewSheetData.batchId v = b ∧ NewSheetData.rowNumber v = Z.of_nat (i + 1)
  ∧ rows !! i = Some (NewSheetData.data v).
Proof.
  unfold prepare. rewrite list_lookup_imap.
  destruct (rows !! i) as [r|]; [|done]. by intros [= <-].
Qed.

Lemma CHUNK_SIZE_pos : 0 < CHUNK_SIZE.
Proof. unfold CHUNK_SIZE. lia. Qed.

Lemma chunked_count b rows evs :
  chunked b rows evs → inserted_of evs + length (errors_of rows evs) = length rows.
Proof.
  unfold chunked. intros Hshape.
  apply chunk_events_count with (rows := rows) in Hshape;
    [|apply CHUNK_SIZE_pos].
  rewrite Hshape, Nat.add_0_l, <-(prepare_length b rows).
  rewrite below_total by apply CHUNK_SIZE_pos.
  unfold below. lia.
Qed.

Lemma writer_events_count b rows evs :
  writer_events b rows evs →
  inserted_of evs + length (errors_of rows evs) = length rows.
Proof.
  unfold writer_events. destruct (LARGE_DATASET <? length rows).
  - apply chunked_count.
  - intros (out & rest & -> & Hrest). destruct out as [e|].
    + change (inserted_of (_ :: rest)) with (0 + inserted_of rest).
      change (errors_of rows (_ :: rest)) with (errors_of rows rest).
      exact (chunked_count b rows rest Hrest).
    + subst rest.
      change (inserted_of [_]) with (length (prepare b rows) + 0).
      change (errors_of rows [_]) with (@nil RowError.t).
      rewrite prepare_length. simpl. lia.
Qed.

Lemma chunked_all_rejected b rows evs :
  chunked b rows evs → Forall (λ ev, failed ev = true) evs →
  RowError.rowIndex <$> errors_of rows evs = seq 0 (length rows).
Proof.
  unfold chunked. intros Hshape Hall.
  rewrite (chunk_events_rejected_indices _ _ rows CHUNK_SIZE_pos _ _ _ Hshape Hall).
  rewrite Nat.add_0_l, <-(prepare_length b rows).
  rewrite below_total by apply CHUNK_SIZE_pos.
  unfold below. f_equal; lia.
Qed.

Lemma writer_events_all_rejected b rows evs :
  writer_events b rows evs → Forall (λ ev, failed ev = true) evs →
  RowError.rowIndex <$> errors_of rows evs = seq 0 (length rows).
Proof.
  unfold writer_events. destruct (LARGE_DATASET <? length rows).
  - apply chunked_all_rejected.
  - intros (out & rest & -> & Hrest) Hall.
    apply Forall_cons in Hall as [Hbulk Hall].
    destruct out as [e|]; [|done].
    change (errors_of rows (_ :: rest)) with (errors_of rows rest).
    by apply (chunked_all_rejected b).
Qed.


(** ** The writer's claims *)

(** C1. For a non-empty array of rows, [storeSheetData] either fails exactly
    as the batch-id allocation failed, or returns a result in which
    [inserted] counts the rows of the inserts that settled (bulk, chunk or
    single-row), [errors] has one entry per rejected single-row insert, and
    [inserted] plus the number of [errors] is the number of rows given. *)
Theorem storeSheetData_counts_every_row {W} `{Database W}
    (rows : list SheetDataRow) tableName (s : State W) :
  rows ≠ [] →
  match getNextBatchId tableName s with
  | (inl e, s1) => storeSheetData (JArr rows) tableName s = (inl e, s1)
  | (inr b, s1) =>
      ∃ result evs w',
        storeSheetData (JArr rows) tableName s = (inr result, extend s1 evs w')
        ∧ StoreSheetDataResult.inserted result = inserted_of evs
        ∧ StoreSheetDataResult.errors result = errors_of rows evs
        ∧ StoreSheetDataResult.inserted result
          + length (StoreSheetDataResult.errors result) = length rows
  end.
Proof.
  intros Hne. pose proof (storeSheetData_run rows tableName s Hne) as Hrun.
  destruct (getNextBatchId tableName s) as [[e|b] s1]; [done|].
  destruct Hrun as (evs & w' & Hrun & _ & Hshape).
  eexists _, evs, w'. split; [exact Hrun|]. simpl.
  split; [done|]. split; [done|]. by apply (writer_events_count b).
Qed.

Lemma storeSheetData_counts_every_row_witness :
  let s := fresh (down_at [1; 2; 4]) in
  three_rows ≠ []
  ∧ match getNextBatchId "sheet_data" s with
    | (inl e, s1) => storeSheetData (JArr three_rows) "sheet_data" s = (inl e, s1)
    | (inr b, s1) =>
        ∃ result evs w',
          storeSheetData (JArr three_rows) "sheet_data" s
          = (inr result, extend s1 evs w')
          ∧ StoreSheetDataResult.inserted result = inserted_of evs
          ∧ StoreSheetDataResult.errors result = errors_of three_rows evs
          ∧ StoreSheetDataResult.inserted result
            + length (StoreSheetDataResult.errors result) = length three_rows
    end.
Proof.
  intros s. split; [done|].
  by apply (storeSheetData_counts_every_row three_rows "sheet_data" s).
Defined.

(** C2. Once the batch id is allocated, [storeSheetData] on a non-empty
    array returns normally with [success = true] whatever the store answers
    to the inserts; its [errors] are the rejected single-row inserts turned
    into entries; and when every insert it sent was rejected, [inserted] is 0
    and there is one entry per row, in row order. *)
Theorem row_failures_become_row_errors {W} `{Database W}
    (rows : list SheetDataRow) tableName (s s1 : State W) b :
  rows ≠ [] →
  getNextBatchId tableName s = (inr b, s1) →
  ∃ result evs w',
    storeSheetData (JArr rows) tableName s = (inr result, extend s1 evs w')
    ∧ StoreSheetDataResult.success result = true
    ∧ StoreSheetDataResult.errors result = errors_of rows evs
    ∧ (Forall (λ ev, failed ev = true) evs →
       StoreSheetDataResult.inserted result = 0
       ∧ length (StoreSheetDataResult.errors result) = length rows
       ∧ RowError.rowIndex <$> StoreSheetDataResult.errors result
         = seq 0 (length rows)).
Proof.
  intros Hne Halloc.
  pose proof (storeSheetData_run rows tableName s Hne) as Hrun.
  rewrite Halloc in Hrun. destruct Hrun as (evs & w' & Hrun & _ & Hshape).
  eexists _, evs, w'. split; [exact Hrun|]. simpl.
  split; [done|]. split; [done|]. intros Hall.
  pose proof (writer_events_count b rows evs Hshape) as Hcount.
  pose proof (nothing_inserted_when_all_rejected evs Hall) as Hzero.
  split; [done|]. split; [lia|]. by apply (writer_events_all_rejected b).
Qed.

Lemma row_failures_become_row_errors_witness :
  let s := fresh (down_from 1) in
  let s1 := state_after (getNextBatchId "sheet_data") s in
  three_rows ≠ []
  ∧ getNextBatchId "sheet_data" s = (inr 1%Z, s1)
  ∧ ∃ result evs w',
      storeSheetData (JArr three_rows) "sheet_data" s
      = (inr result, extend s1 evs w')
      ∧ StoreSheetDataResult.success result = true
      ∧ StoreSheetDataResult.errors result = errors_of three_rows evs
      ∧ (Forall (λ ev, failed ev = true) evs →
         StoreSheetDataResult.inserted result = 0
         ∧ length (StoreSheetDataResult.errors result) = length three_rows
         ∧ RowError.rowIndex <$> StoreSheetDataResult.errors result
           = seq 0 (length three_rows)).
Proof.
  intros s s1. split; [done|]. split; [reflexivity|].
  apply (row_failures_become_row_errors three_rows "sheet_data" s s1 1);
    [done|reflexivity].
Defined.

(** C3. Above 10000 rows no bulk insert is sent: the statements are those of
    the chunked insertion with chunks of 5000, each of at most 5000 rows.
    Up to 10000 rows the first statement is one insert of all rows; when it
    settles it is the only statement and all rows count as inserted; the
    chunked insertion follows only when it was rejected. *)
Theorem size_threshold_policy {W} `{Database W}
    (rows : list SheetDataRow) tableName (s s1 : State W) b :
  rows ≠ [] →
  getNextBatchId tableName s = (inr b, s1) →
  ∃ result evs w',
    storeSheetData (JArr rows) tableName s = (inr result, extend s1 evs w')
    ∧ if N.to_nat 10000 <? length rows then
        chunk_events (prepare b rows) (N.to_nat 5000)
          (ceil_div (length rows) (N.to_nat 5000)) 0 evs
        ∧ Forall (λ ev, is_bulk ev = false
                        ∧ length (values_of ev) ≤ N.to_nat 5000) evs
      else
        ∃ out rest,
          evs = {| site := Bulk; stmt := SqlInsert (prepare b rows);
                   failure := out |} :: rest
          ∧ match out with
            | None =>
                rest = []
                ∧ result = StoreSheetDataResult.mk true b (length rows) []
            | Some _ =>
                chunk_events (prepare b rows) (N.to_nat 5000)
                  (ceil_div (length rows) (N.to_nat 5000)) 0 rest
            end.
Proof.
  intros Hne Halloc.
  pose proof (storeSheetData_run rows tableName s Hne) as Hrun.
  rewrite Halloc in Hrun. destruct Hrun as (evs & w' & Hrun & _ & Hshape).
  eexists _, evs, w'. split; [exact Hrun|].
  unfold writer_events, chunked in Hshape.
  change (N.to_nat 10000) with LARGE_DATASET.
  change (N.to_nat 5000) with CHUNK_SIZE.
  destruct (LARGE_DATASET <? length rows).
  - split; [done|].
    by apply (chunk_events_small _ _ CHUNK_SIZE_pos) in Hshape.
  - destruct Hshape as (out & rest & -> & Hrest).
    exists out, rest. split; [done|]. destruct out as [e|]; [done|].
    subst rest. split; [done|].
    change (inserted_of [_]) with (length (prepare b rows) + 0).
    change (errors_of rows [_]) with (@nil RowError.t).
    by rewrite prepare_length, Nat.add_0_r.
Qed.

Lemma size_threshold_policy_witness :
  let s := fresh always_up in
  let s1 := state_after (getNextBatchId "sheet_data") s in
  let rows := replicate (N.to_nat 10001) (sample_row 1) in
  rows ≠ []
  ∧ getNextBatchId "sheet_data" s = (inr 1%Z, s1)
  ∧ ∃ result evs w',
      storeSheetData (JArr rows) "sheet_data" s = (inr result, extend s1 evs w')
      ∧ if N.to_nat 10000 <? length rows then
          chunk_events (prepare 1 rows) (N.to_nat 5000)
            (ceil_div (length rows) (N.to_nat 5000)) 0 evs
          ∧ Forall (λ ev, is_bulk ev = false
                          ∧ length (values_of ev) ≤ N.to_nat 5000) evs
        else
          ∃ out rest,
            evs = {| site := Bulk; stmt := SqlInsert (prepare 1 rows);
                     failure := out |} :: rest
            ∧ match out with
              | None =>
                  rest = []
                  ∧ result = StoreSheetDataResult.mk true 1 (length rows) []
              | Some _ =>
                  chunk_events (prepare 1 rows) (N.to_nat 5000)
                    (ceil_div (length rows) (N.to_nat 5000)) 0 rest
              end.
Proof.
  intros s s1 rows.
  assert (Hne : rows ≠ []).
  { intros Hnil. apply (f_equal length) in Hnil.
    unfold rows in Hnil. rewrite length_replicate in Hnil. simpl in Hnil. lia. }
  split; [exact Hne|]. split; [reflexivity|].
  apply (size_threshold_policy rows "sheet_data" s s1 1); [exact Hne|reflexivity].
Defined.

(** C4. When every single-row insert that was sent settled (bulk and chunk
    inserts may have been rejected), the result is the one of the successful
    bulk path: all rows inserted, no error. *)
Theorem degraded_inserts_match_bulk {W} `{Database W}
    (rows : list SheetDataRow) tableName (s s1 : State W) b :
  rows ≠ [] →
  getNextBatchId tableName s = (inr b, s1) →
  ∃ result evs w',
    storeSheetData (JArr rows) tableName s = (inr result, extend s1 evs w')
    ∧ (Forall (λ ev, is_single ev = true → failed ev = false) evs →
       result = StoreSheetDataResult.mk true b (length rows) []).
Proof.
  intros Hne Halloc.
  pose proof (storeSheetData_run rows tableName s Hne) as Hrun.
  rewrite Halloc in Hrun. destruct Hrun as (evs & w' & Hrun & _ & Hshape).
  eexists _, evs, w'. split; [exact Hrun|]. intros Hsingles.
  pose proof (writer_events_count b rows evs Hshape) as Hcount.
  rewrite (no_error_without_rejected_single rows evs Hsingles) in *.
  simpl in Hcount. f_equal. lia.
Qed.

Lemma degraded_inserts_match_bulk_witness :
  let s := fresh (down_at [1; 2]) in
  let s1 := state_after (getNextBatchId "sheet_data") s in
  three_rows ≠ []
  ∧ getNextBatchId "sheet_data" s = (inr 1%Z, s1)
  ∧ ∃ result evs w',
      storeSheetData (JArr three_rows) "sheet_data" s
      = (inr result, extend s1 evs w')
      ∧ (Forall (λ ev, is_single ev = true → failed ev = false) evs →
         result = StoreSheetDataResult.mk true 1 (length three_rows) []).
Proof.
  intros s s1. split; [done|]. split; [reflexivity|].
  apply (degraded_inserts_match_bulk three_rows "sheet_data" s s1 1);
    [done|reflexivity].
Defined.


(** ** parseInt reads back what the store prints *)

Lemma digit_value_char (d : N) :
  (d < 10)%N → digit_value (pretty_N_char d) = Some (Z.of_N d).
Proof.
  intros Hd.
  assert (d = 0 ∨ d = 1 ∨ d = 2 ∨ d = 3 ∨ d = 4 ∨ d = 5 ∨ d = 6 ∨ d = 7
          ∨ d = 8 ∨ d = 9)%N as Hcases by lia.
  by repeat destruct Hcases as [->|Hcases]; [..|subst d].
Qed.

Lemma parse_digits_pretty_go (x : N) :
  ∃ k : Z, (0 ≤ k)%Z ∧ ∀ acc s,
    parse_digits acc (pretty_N_go x s)
    = if decide (x = 0)%N then parse_digits acc s
      else parse_digits (Some (default 0 acc * 10 ^ k + Z.of_N x)%Z) s.
Proof.
  induction (N.lt_wf_0 x) as [x _ IH].
  destruct (decide (x = 0)%N) as [->|Hx]; [by exists 0%Z|].
  destruct (IH (x `div` 10)%N) as (k & Hk0 & Hk); [apply N.div_lt; lia|].
  pose proof (N.mod_upper_bound x 10) as Hmod.
  pose proof (N.div_mod x 10) as Hdiv.
  destruct (decide (x `div` 10 = 0)%N) as [Hsmall|Hbig].
  - exists 1%Z. split; [lia|]. intros acc s.
    rewrite pretty_N_go_step, Hk by lia.
    destruct (decide (x `div` 10 = 0)%N); [|done].
    simpl. rewrite digit_value_char by lia. do 2 f_equal. lia.
  - exists (k + 1)%Z. split; [lia|]. intros acc s.
    rewrite pretty_N_go_step, Hk by lia.
    destruct (decide (x `div` 10 = 0)%N); [done|].
    simpl. rewrite digit_value_char by lia. do 2 f_equal.
    rewrite Z.pow_add_r by lia. lia.
Qed.

Lemma pretty_go_head (x : N) s :
  (0 < x)%N →
  ∃ d rest, (d < 10)%N ∧ pretty_N_go x s = String (pretty_N_char d) rest.
Proof.
  revert s. induction (N.lt_wf_0 x) as [x _ IH]; intros s Hx.
  rewrite pretty_N_go_step by done.
  destruct (decide (x `div` 10 = 0)%N) as [->|Hbig].
  - exists (x `mod` 10)%N, s. split; [by apply N.mod_upper_bound|done].
  - apply IH.
    + apply N.div_lt; [done|lia].
    + apply N.neq_0_lt_0. done.
Qed.

Lemma parseInt_digit_head (d : N) rest :
  (d < 10)%N →
  parseInt (String (pretty_N_char d) rest)
  = parse_digits None (String (pretty_N_char d) rest).
Proof.
  intros Hd.
  assert (d = 0 ∨ d = 1 ∨ d = 2 ∨ d = 3 ∨ d = 4 ∨ d = 5 ∨ d = 6 ∨ d = 7
          ∨ d = 8 ∨ d = 9)%N as Hcases by lia.
  by repeat destruct Hcases as [->|Hcases]; [..|subst d].
Qed.

Lemma parse_digits_pretty_pos (p : positive) :
  parse_digits None (pretty_N_go (Npos p) "") = Some (Zpos p).
Proof.
  destruct (parse_digits_pretty_go (Npos p)) as (k & _ & Hk).
  rewrite Hk. simpl. done.
Qed.

(** The decimal text of an integer parses back to it. *)
Lemma parseInt_pretty (z : Z) : parseInt (pretty z) = Some z.
Proof.
  destruct z as [|p|p]; [done|..].
  - change (pretty (Zpos p)) with (pretty_N_go (Npos p) "").
    destruct (pretty_go_head (Npos p) "") as (d & rest & Hd & Hhead); [lia|].
    rewrite Hhead, parseInt_digit_head, <-Hhead by done.
    apply parse_digits_pretty_pos.
  - change (pretty (Zneg p)) with (String "-" (pretty_N_go (Npos p) "")).
    change (parseInt (String "-" ?s)) with (Z.opp <$> parse_digits None s).
    by rewrite parse_digits_pretty_pos.
Qed.

(** ** The allocator on the relational store *)

Lemma max_batch_id_app t a :
  max_batch_id (t ++ a)
  = match max_batch_id t, max_batch_id a with
    | Some m, Some n => Some (m `max` n)%Z
    | Some m, None => Some m
    | None, o => o
    end.
Proof.
  induction t as [|r t IH]; simpl; [by destruct (max_batch_id a)|].
  rewrite IH.
  destruct (max_batch_id t), (max_batch_id a); f_equal; lia.
Qed.

Lemma max_batch_id_same b a :
  a ≠ [] → Forall (λ r, SheetData.batchId r = b) a → max_batch_id a = Some b.
Proof.
  intros Hne Hall. induction Hall as [|r a Hr Hall IH]; [done|]. simpl.
  destruct a as [|r' a'].
  - simpl. by rewrite Hr.
  - rewrite IH by done. rewrite Hr. f_equal. lia.
Qed.

(** Rows of a batch that took the next id move the next id up by one. *)
Lemma next_batch_id_after_batch t a :
  a ≠ [] →
  Forall (λ r, SheetData.batchId r = next_batch_id_of t) a →
  next_batch_id_of (t ++ a) = (next_batch_id_of t + 1)%Z.
Proof.
  intros Hne Hall. unfold next_batch_id_of in *.
  rewrite max_batch_id_app, (max_batch_id_same _ a Hne Hall).
  destruct (max_batch_id t); simpl; lia.
Qed.

Lemma getNextBatchId_pg tableName (s s1 : State Pg) b :
  getNextBatchId tableName s = (inr b, s1) →
  b = next_batch_id_of (table (world s)) ∧ world s1 = tick (world s).
Proof.
  unfold getNextBatchId, mbind, M_bind, await_query. simpl.
  unfold pg_query.
  destruct (down (world s) (clock (world s))); [done|].
  destruct (negb (String.eqb tableName "sheet_data")); [done|].
  destruct (negb (int4 (next_batch_id_of (table (world s))))); [done|].
  simpl. rewrite parseInt_pretty. by intros [= <- <-].
Qed.

Lemma getNextBatchId_pg_table tableName (s : State Pg) :
  table (world (state_after (getNextBatchId tableName) s)) = table (world s).
Proof.
  unfold state_after.
  destruct (getNextBatchId_run tableName s) as (r & w1 & out & Hq & ->).
  simpl in *. unfold pg_query in Hq.
  repeat (destruct (_ : bool) in Hq; [by injection Hq as _ <-|]).
  by injection Hq as _ <-.
Qed.

Lemma pg_insert_table vs (w w' : Pg) r :
  pg_insert vs w = (r, w') →
  table w' = table w ++ (if r is inr _ then stamp w vs else []).
Proof.
  unfold pg_insert.
  repeat (destruct (_ : bool);
          [intros [= <- <-]; simpl; by rewrite app_nil_r|]).
  destruct (jsonb_error w vs); [intros [= <- <-]; simpl; by rewrite app_nil_r|].
  repeat (destruct (_ : bool);
          [intros [= <- <-]; simpl; by rewrite app_nil_r|]).
  by intros [= <- <-].
Qed.

Lemma stamp_length w vs : length (stamp w vs) = length vs.
Proof. apply length_imap. Qed.

Lemma stamp_batch w vs b :
  Forall (λ v, NewSheetData.batchId v = b) vs →
  Forall (λ r, SheetData.batchId r = b) (stamp w vs).
Proof.
  rewrite !Forall_forall. intros Hvs r Hr.
  apply elem_of_lookup_imap_1 in Hr as (k & v & -> & Hv). simpl.
  apply Hvs. apply list_elem_of_lookup. by exists k.
Qed.

(** What a sequence of inserts leaves in the table: the rows of the settled
    statements, as many as [inserted] counts. *)
Lemma inserts_sent_pg (w w' : Pg) evs b :
  inserts_sent w evs w' →
  Forall (λ ev, Forall (λ v, NewSheetData.batchId v = b) (values_of ev)) evs →
  ∃ added,
    table w' = table w ++ added
    ∧ length added = inserted_of evs
    ∧ Forall (λ r, SheetData.batchId r = b) added.
Proof.
  induction 1 as [w|w from vs r w1 evs w2 Hins _ IH]; intros Hall.
  { exists []. by rewrite app_nil_r. }
  apply Forall_cons in Hall as [Hvs Hall]. simpl in Hvs.
  destruct (IH Hall) as (added & Htable & Hlen & Hbatch).
  apply pg_insert_table in Hins.
  destruct r as [e|[]].
  - exists added. rewrite app_nil_r in Hins. by rewrite Htable, Hins.
  - exists (stamp w vs ++ added). rewrite Htable, Hins, app_assoc.
    split; [done|]. split.
    + rewrite length_app, stamp_length, Hlen. done.
    + apply Forall_app. split; [by apply stamp_batch|done].
Qed.

Lemma prepare_batch b rows :
  Forall (λ v, NewSheetData.batchId v = b) (prepare b rows).
Proof.
  apply Forall_forall. intros v Hv.
  apply list_elem_of_lookup in Hv as [i Hi].
  by apply prepare_lookup in Hi as [? _].
Qed.

Lemma writer_events_batch b rows evs :
  writer_events b rows evs →
  Forall (λ ev, Forall (λ v, NewSheetData.batchId v = b) (values_of ev)) evs.
Proof.
  assert (Hsub : ∀ evs,
    Forall (λ ev, values_of ev ⊆ prepare b rows) evs →
    Forall (λ ev, Forall (λ v, NewSheetData.batchId v = b) (values_of ev)) evs).
  { intros evs' Hevs'. eapply Forall_impl; [exact Hevs'|]. intros ev Hev.
    apply Forall_forall. intros v Hv.
    pose proof (prepare_batch b rows) as Hall.
    rewrite Forall_forall in Hall. by apply Hall, Hev. }
  unfold writer_events, chunked. destruct (LARGE_DATASET <? length rows).
  - intros Hshape. apply chunk_events_values in Hshape; [|apply CHUNK_SIZE_pos].
    by apply Hsub.
  - intros (out & rest & -> & Hrest). constructor; [apply prepare_batch|].
    destruct out as [e|]; [|by subst rest].
    apply chunk_events_values in Hrest; [|apply CHUNK_SIZE_pos].
    by apply Hsub.
Qed.

(** One upload on the relational store: the id is the store's next id, the
    table grows by [inserted] rows of that id, and by nothing on failure. *)
Lemma storeSheetData_pg sheetData tableName (s : State Pg) :
  match storeSheetData sheetData tableName s with
  | (inr result, s1) =>
      StoreSheetDataResult.batchId result = next_batch_id_of (table (world s))
      ∧ ∃ added,
          table (world s1) = table (world s) ++ added
          ∧ length added = StoreSheetDataResult.inserted result
          ∧ Forall (λ r, SheetData.batchId r
                         = StoreSheetDataResult.batchId result) added
  | (inl _, s1) => table (world s1) = table (world s)
  end.
Proof.
  destruct sheetData as [| | | | |rows|]; try done.
  destruct (decide (rows = [])) as [->|Hne]; [done|].
  pose proof (storeSheetData_run rows tableName s Hne) as Hrun.
  pose proof (getNextBatchId_pg_table tableName s) as Htable.
  unfold state_after in Htable.
  destruct (getNextBatchId tableName s) as [[e|b] s1] eqn:Halloc.
  - by rewrite Hrun.
  - destruct Hrun as (evs & w' & -> & Hsent & Hshape).
    apply getNextBatchId_pg in Halloc as [-> Hworld]. simpl in *.
    split; [done|].
    destruct (inserts_sent_pg _ _ _ _ Hsent (writer_events_batch _ _ _ Hshape))
      as (added & Hadded & Hlen & Hbatch).
    exists added. by rewrite Hadded, Htable.
Qed.

Lemma fetchBatchData_pg_table toString batchId (s : State Pg) :
  table (world (state_after (fetchBatchData toString batchId) s)) = table (world s).
Proof.
  unfold state_after, fetchBatchData.
  destruct (isNaN batchId || number_lt batchId (number_of_Z 1)); [done|].
  unfold mbind, M_bind, await_select. simpl. unfold pg_select.
  destruct (down (world s) (clock (world s))); [done|].
  destruct (number_to_Z batchId) as [z|]; [|done]. by destruct (int4 z).
Qed.

(** The next id never goes down while the module is used sequentially. *)
Lemma later_next_batch_id toString (s s' : State Pg) :
  later toString s s' →
  (next_batch_id_of (table (world s)) ≤ next_batch_id_of (table (world s')))%Z.
Proof.
  induction 1 as [s|s s' sheetData tableName _ IH|s s' batchId _ IH]; [done|..].
  - pose proof (storeSheetData_pg sheetData tableName s') as Hstep.
    unfold state_after.
    destruct (storeSheetData sheetData tableName s') as [[e|r] s''] eqn:Hrun;
      simpl.
    + by rewrite Hstep.
    + destruct Hstep as (Hid & added & -> & _ & Hbatch).
      destruct added as [|x added]; [by rewrite app_nil_r|].
      rewrite next_batch_id_after_batch; [lia|done|by rewrite <-Hid].
  - by rewrite (fetchBatchData_pg_table toString batchId s').
Qed.

(** ** The allocator's claims *)

(** How the batch ids of sequential uploads follow the rows stored.  On
    the relational store a later upload never gets a smaller batch id than
    an earlier one; it gets a strictly larger one when the earlier upload
    stored at least one row; when the earlier upload stored no row and the
    table is still what that upload left, it gets the same id. *)
Theorem batch_ids_follow_stored_rows toString sheetData1 tableName1
    sheetData2 tableName2 (s s1 s2 s3 : State Pg) r1 r2 :
  storeSheetData sheetData1 tableName1 s = (inr r1, s1) →
  later toString s1 s2 →
  storeSheetData sheetData2 tableName2 s2 = (inr r2, s3) →
  (StoreSheetDataResult.batchId r1 ≤ StoreSheetDataResult.batchId r2)%Z
  ∧ (0 < StoreSheetDataResult.inserted r1 →
     (StoreSheetDataResult.batchId r1 < StoreSheetDataResult.batchId r2)%Z)
  ∧ (StoreSheetDataResult.inserted r1 = 0 →
     table (world s2) = table (world s1) →
     StoreSheetDataResult.batchId r2 = StoreSheetDataResult.batchId r1).
Proof.
  intros Hrun1 Hlater Hrun2.
  pose proof (storeSheetData_pg sheetData1 tableName1 s) as Hfirst.
  pose proof (storeSheetData_pg sheetData2 tableName2 s2) as Hsecond.
  rewrite Hrun1 in Hfirst. rewrite Hrun2 in Hsecond.
  destruct Hfirst as (Hid1 & added & Htable & Hlen & Hbatch).
  destruct Hsecond as (Hid2 & _).
  apply later_next_batch_id in Hlater. rewrite Htable in Hlater.
  destruct added as [|x added].
  - rewrite app_nil_r in *. simpl in Hlen.
    split; [lia|]. split; [lia|]. intros _ Hsame.
    by rewrite Hid1, Hid2, Hsame, Htable.
  - rewrite next_batch_id_after_batch in Hlater; [|done|by rewrite <-Hid1].
    simpl in Hlen. split; [lia|]. split; [lia|]. lia.
Qed.

Lemma batch_ids_follow_stored_rows_witness :
  let s := fresh (down_at [1; 2; 4]) in
  let s1 := state_after (storeSheetData (JArr three_rows) "sheet_data") s in
  let s3 := state_after (storeSheetData (JArr three_rows) "sheet_data") s1 in
  let r1 := StoreSheetDataResult.mk true 1 2
              [RowError.mk 1 2 (sample_row 2) "Connection terminated unexpectedly"] in
  let r2 := StoreSheetDataResult.mk true 2 3 [] in
  storeSheetData (JArr three_rows) "sheet_data" s = (inr r1, s1)
  ∧ later sample_toString s1 s1
  ∧ storeSheetData (JArr three_rows) "sheet_data" s1 = (inr r2, s3)
  ∧ (1 ≤ 2)%Z ∧ (0 < 2 → (1 < 2)%Z)
  ∧ (2 = 0 → table (world s1) = table (world s1) → 2%Z = 1%Z).
Proof.
  intros s s1 s3 r1 r2.
  assert (H1 : storeSheetData (JArr three_rows) "sheet_data" s = (inr r1, s1))
    by (vm_compute; reflexivity).
  assert (H2 : storeSheetData (JArr three_rows) "sheet_data" s1 = (inr r2, s3))
    by (vm_compute; reflexivity).
  split; [exact H1|]. split; [constructor|]. split; [exact H2|].
  exact (batch_ids_follow_stored_rows sample_toString _ _ _ _ s s1 s1 s3 r1 r2
           H1 (later_now _ s1) H2).
Defined.

(** C5 fails on the code: a batch id is handed out twice.  On an empty
    table, with the store answering every statement, take an upload of one
    row that the [data] column does not take: a row with U+0000 in a
    string, which jsonb refuses, or the row [null], which NOT NULL refuses.
    The upload is given batch id 1; its bulk insert, its chunk insert and
    its single-row insert are rejected, and it returns with [inserted = 0]
    and one error.  The next upload, of [{"a": 1}], is given batch id 1
    again and stores its row under it. *)
Theorem batch_id_returned_again :
  Forall
    (λ row,
       let first := storeSheetData (JArr [row]) "sheet_data" (fresh always_up) in
       let second := storeSheetData (JArr [sample_row 1]) "sheet_data" first.2 in
       match first.1, second.1 with
       | inr r1, inr r2 =>
           StoreSheetDataResult.success r1 = true
           ∧ StoreSheetDataResult.batchId r1 = 1%Z
           ∧ StoreSheetDataResult.inserted r1 = 0
           ∧ RowError.rowNumber <$> StoreSheetDataResult.errors r1 = [1]
           ∧ table (world first.2) = []
           ∧ StoreSheetDataResult.batchId r2 = 1%Z
           ∧ StoreSheetDataResult.inserted r2 = 1
           ∧ StoreSheetDataResult.errors r2 = []
           ∧ ¬ (StoreSheetDataResult.batchId r1
                < StoreSheetDataResult.batchId r2)%Z
       | _, _ => False
       end)
    [JObj [("a", JStr (String Ascii.zero ""))]; JNull].
Proof. repeat constructor; vm_compute; repeat split; done. Qed.

(** C6, as the code has it.  [getNextBatchId] fails with a status-500 error
    when the query is rejected or answers without a row; when there is a
    first row it raises its invalid-batch-id error exactly when [parseInt]
    of that row's value is NaN, and any integer the value parses to, of any
    sign, is returned as the batch id. *)
Theorem getNextBatchId_rejects_only_NaN {W} `{Database W} tableName
    (s : State W) :
  match (pool_query tableName (world s)).1 with
  | inl _ =>
      ∃ message, (getNextBatchId tableName s).1 = inl (AppError message 500)
  | inr res =>
      match rows res !! 0 with
      | None =>
          ∃ message, (getNextBatchId tableName s).1 = inl (AppError message 500)
      | Some row0 =>
          (getNextBatchId tableName s).1
          = match parseInt (next_batch_id row0) with
            | Some batchId => inr batchId
            | None => inl (AppError "Invalid batch ID returned from database" 500)
            end
      end
  end.
Proof.
  unfold getNextBatchId, mbind, M_bind, await_query.
  destruct (pool_query tableName (world s)) as [[e|res] w1]; simpl.
  - by eexists.
  - destruct (rows res !! 0) as [row0|]; simpl; [|by eexists].
    by destruct (parseInt (next_batch_id row0)).
Qed.

(** C6 as stated fails: on a store whose largest batch id is -4 the response
    parses to -3, and -3 is returned as the batch id. *)
Lemma negative_batch_id_returned :
  (getNextBatchId "sheet_data" foreign_store).1 = inr (-3)%Z.
Proof. reflexivity. Qed.

(** ** The reader's claims *)

Lemma number_to_Z_of_Z z : number_to_Z (number_of_Z z) = Some z.
Proof.
  unfold number_to_Z, number_of_Z. simpl.
  rewrite Z.mod_1_r, Z.div_1_r. by destruct (decide (0 = 0)%Z).
Qed.

Lemma positive_integer_passes_guard z :
  (1 ≤ z)%Z →
  isNaN (number_of_Z z) || number_lt (number_of_Z z) (number_of_Z 1) = false.
Proof. intros Hz. simpl. apply Z.ltb_ge. lia. Qed.

#[export] Instance by_row_number_total : Total by_row_number.
Proof. intros a b. unfold by_row_number. lia. Qed.

#[export] Instance by_row_number_trans : Transitive by_row_number.
Proof. intros a b c. unfold by_row_number. lia. Qed.

Lemma NoDup_fmap_eq {A B} (f : A → B) (l : list A) x y :
  NoDup (f <$> l) → x ∈ l → y ∈ l → f x = f y → x = y.
Proof.
  induction l as [|a l IH]; intros Hnd Hx Hy Hf; [by apply elem_of_nil in Hx|].
  rewrite fmap_cons in Hnd. apply NoDup_cons in Hnd as [Ha Hnd].
  apply elem_of_cons in Hx as [->|Hx]; apply elem_of_cons in Hy as [->|Hy].
  - done.
  - destruct Ha. rewrite Hf. by apply list_elem_of_fmap_2.
  - destruct Ha. rewrite <-Hf. by apply list_elem_of_fmap_2.
  - by apply IH.
Qed.

(** With the uniqueness constraint, the selected sequence does not depend
    on the order in which the rows arrived. *)
Lemma select_batch_order_free z t1 t2 :
  unique_batch_row t1 → t2 ≡ₚ t1 → select_batch z t2 = select_batch z t1.
Proof.
  intros Hunique Hperm. unfold select_batch.
  apply (Sorted_unique_strong by_row_number).
  - intros x1 x2 Hx1 Hx2 H12 H21.
    rewrite merge_sort_Permutation in Hx1, Hx2.
    apply list_elem_of_filter in Hx1 as [Hb1 Hx1].
    apply list_elem_of_filter in Hx2 as [Hb2 Hx2].
    rewrite Hperm in Hx1.
    apply (NoDup_fmap_eq batch_row t1); [done..|].
    unfold batch_row, by_row_number in *. f_equal; lia.
  - apply Sorted_merge_sort, _.
  - apply Sorted_merge_sort, _.
  - by rewrite !merge_sort_Permutation, Hperm.
Qed.

(** C7, as the code has it.  [fetchBatchData] raises its status-400 error
    exactly when the argument is NaN or less than 1, and then sends nothing
    to the store; for every other argument, integral or not, the select is
    sent. *)
Theorem fetchBatchData_guard {W} `{Database W} toString batchId (s : State W) :
  let invalid := isNaN batchId || number_lt batchId (number_of_Z 1) in
  ((∃ message,
      (fetchBatchData toString batchId s).1 = inl (AppError message 400))
   ↔ invalid = true)
  ∧ (if invalid
     then state_after (fetchBatchData toString batchId) s = s
     else ∃ out w',
         state_after (fetchBatchData toString batchId) s
         = extend s [{| site := Fetch; stmt := SqlSelectBatch batchId;
                        failure := out |}] w').
Proof.
  unfold state_after, fetchBatchData. simpl.
  destruct (isNaN batchId || number_lt batchId (number_of_Z 1)).
  - split; [|done]. split; [done|]. intros _. by eexists.
  - unfold mbind, M_bind, await_select.
    destruct (db_select batchId (world s)) as [[e|rows] w'] eqn:Hselect; simpl.
    + split; [|by eexists _, _]. split; [|done]. by intros [m [=]].
    + split; [|by eexists _, _]. split; [|done]. by intros [m [=]].
Qed.

(** C7 as stated fails at 1.5: it is not a positive integer, yet the guard
    lets it through, the select is sent, and the failure that comes back has
    status 500. *)
Lemma fractional_batch_id_is_queried :
  let run := fetchBatchData sample_toString (Finite (3 # 2)) (fresh always_up) in
  number_to_Z (Finite (3 # 2)) = None
  ∧ trace run.2
    = [{| site := Fetch; stmt := SqlSelectBatch (Finite (3 # 2));
          failure := Some (Error "invalid input syntax for type integer") |}]
  ∧ run.1
    = inl (AppError
             "Failed to fetch batch data: invalid input syntax for type integer"
             500).
Proof. by vm_compute. Qed.

(** C8. On the relational store, for a positive integer batch id (one the
    integer column can hold) and a store that answers the query,
    [fetchBatchData] returns the rows whose [batchId] is the argument, each
    once, in ascending [rowNumber]; under the uniqueness constraint the
    returned sequence is the same for every arrival order of the rows. *)
Theorem fetchBatchData_sorted_batch toString (z : Z) (s : State Pg) :
  (1 ≤ z)%Z →
  int4 z = true →
  down (world s) (clock (world s)) = false →
  ∃ rows s',
    fetchBatchData toString (number_of_Z z) s = (inr rows, s')
    ∧ rows ≡ₚ filter (λ r, SheetData.batchId r = z) (table (world s))
    ∧ Sorted by_row_number rows
    ∧ ∀ s2 : State Pg,
        unique_batch_row (table (world s)) →
        table (world s2) ≡ₚ table (world s) →
        down (world s2) (clock (world s2)) = false →
        (fetchBatchData toString (number_of_Z z) s2).1 = inr rows.
Proof.
  intros Hz Hrange Hup.
  assert (Hrun : ∀ s0 : State Pg,
    down (world s0) (clock (world s0)) = false →
    (fetchBatchData toString (number_of_Z z) s0).1
    = inr (select_batch z (table (world s0)))).
  { intros s0 Hup0. unfold fetchBatchData.
    rewrite positive_integer_passes_guard by done.
    unfold mbind, M_bind, await_select. simpl. unfold pg_select.
    by rewrite Hup0, number_to_Z_of_Z, Hrange. }
  specialize (Hrun s Hup) as Hs.
  destruct (fetchBatchData toString (number_of_Z z) s) as [r s'] eqn:Hfetch.
  simpl in Hs. subst r.
  exists (select_batch z (table (world s))), s'. split; [done|]. split; [|split].
  - apply merge_sort_Permutation.
  - apply Sorted_merge_sort, _.
  - intros s2 Hunique Hperm Hup2. rewrite (Hrun s2 Hup2). f_equal.
    by apply select_batch_order_free.
Qed.

Lemma fetchBatchData_sorted_batch_witness :
  let s := state_after (storeSheetData (JArr three_rows) "sheet_data")
             (fresh (down_at [1; 2; 3])) in
  (1 ≤ 1)%Z
  ∧ int4 1 = true
  ∧ down (world s) (clock (world s)) = false
  ∧ ∃ rows s',
      fetchBatchData sample_toString (number_of_Z 1) s = (inr rows, s')
      ∧ rows ≡ₚ filter (λ r, SheetData.batchId r = 1%Z) (table (world s))
      ∧ Sorted by_row_number rows
      ∧ ∀ s2 : State Pg,
          unique_batch_row (table (world s)) →
          table (world s2) ≡ₚ table (world s) →
          down (world s2) (clock (world s2)) = false →
          (fetchBatchData sample_toString (number_of_Z 1) s2).1 = inr rows.
Proof.
  intros s. split; [lia|]. split; [reflexivity|]. split; [reflexivity|].
  apply (fetchBatchData_sorted_batch sample_toString 1 s);
    [lia|reflexivity|reflexivity].
Defined.

(** Rows whose ids run against their row numbers come back by row number. *)
Example fetch_orders_by_row_number :
  let s := {| world := {| table := [SheetData.mk 1 7 2 (sample_row 2) 0;
                                    SheetData.mk 2 8 1 (sample_row 0) 0;
                                    SheetData.mk 3 7 1 (sample_row 1) 1];
                          serial := 4; clock := 2; down := always_up;
                          refused := sample_refused; kept := sample_kept |};
              trace := [] |} in
  match (fetchBatchData sample_toString (number_of_Z 7) s).1 with
  | inr rows => SheetData.id <$> rows = [3; 1]%Z
                ∧ SheetData.rowNumber <$> rows = [1; 2]%Z
  | inl _ => False
  end.
Proof. by vm_compute. Qed.

(** ** The upload route's claim *)

(** C10. When [storeSheetData] returns, the route answers 200 if the result
    has no error and 207 otherwise; the [data] object of the 200 answer has
    the keys [batchId] and [inserted] and no [errors] key, that of the 207
    answer carries the errors under [errors]. *)
Theorem upload_response_shape {W} `{Database W} (rows : list SheetDataRow)
    (s s' : State W) result :
  rows ≠ [] →
  storeSheetData (JArr rows) "sheet_data" s = (inr result, s') →
  ∃ message data,
    upload_sheet_data (JArr rows) s
    = (inr {| status := if StoreSheetDataResult.errors result is []
                        then 200 else 207;
              body := JObj [("success", JBool true);
                            ("message", JStr message);
                            ("data", JObj data)] |}, s')
    ∧ keys data = (if StoreSheetDataResult.errors result is []
                   then ["batchId"; "inserted"]
                   else ["batchId"; "inserted"; "errors"])
    ∧ get_field "errors" data
      = (if StoreSheetDataResult.errors result is [] then None
         else Some (JArr (RowError_to_js <$> StoreSheetDataResult.errors result))).
Proof.
  intros Hne Hstore. unfold upload_sheet_data.
  destruct rows as [|row0 rows']; [done|].
  cbn [truthy negb]. unfold mbind, M_bind. rewrite Hstore.
  destruct (StoreSheetDataResult.errors result) as [|e errs];
    cbn [length Nat.ltb Nat.leb]; by eexists _, _.
Qed.

Lemma upload_response_shape_witness :
  let s := fresh (down_at [1; 2; 4]) in
  let result := StoreSheetDataResult.mk true 1 2
                  [RowError.mk 1 2 (sample_row 2)
                     "Connection terminated unexpectedly"] in
  let s' := state_after (storeSheetData (JArr three_rows) "sheet_data") s in
  three_rows ≠ []
  ∧ storeSheetData (JArr three_rows) "sheet_data" s = (inr result, s')
  ∧ ∃ message data,
      upload_sheet_data (JArr three_rows) s
      = (inr {| status := 207;
                body := JObj [("success", JBool true);
                              ("message", JStr message);
                              ("data", JObj data)] |}, s')
      ∧ keys data = ["batchId"; "inserted"; "errors"]
      ∧ get_field "errors" data
        = Some (JArr (RowError_to_js <$> StoreSheetDataResult.errors result)).
Proof.
  intros s result s'.
  assert (Hrun : storeSheetData (JArr three_rows) "sheet_data" s = (inr result, s'))
    by (vm_compute; reflexivity).
  split; [done|]. split; [exact Hrun|].
  exact (upload_response_shape three_rows s s' result ltac:(done) Hrun).
Defined.

(** * Further properties *)

(** ** Which rows an upload stores *)

Lemma slice_app {A} (l : list A) a b c :
  a ≤ b → b ≤ c → slice a b l ++ slice b c l = slice a c l.
Proof.
  intros Hab Hbc. unfold slice.
  replace (drop b l) with (drop (b - a) (drop a l))
    by (rewrite drop_drop; f_equal; lia).
  rewrite take_take_drop. f_equal. lia.
Qed.

Lemma slice_one {A} (l : list A) i v : l !! i = Some v → slice i (S i) l = [v].
Proof.
  intros Hv. unfold slice. rewrite (drop_S _ _ _ Hv).
  replace (S i - i) with 1 by lia. done.
Qed.

Lemma slice_same {A} (l : list A) a : slice a a l = [].
Proof. unfold slice. by rewrite Nat.sub_diag. Qed.

Lemma sublist_same_length {A} (l1 l2 : list A) :
  l1 `sublist_of` l2 → length l2 ≤ length l1 → l1 = l2.
Proof.
  induction 1 as [|x l1 l2 _ IH|x l1 l2 Hsub _]; simpl; intros Hlen.
  - done.
  - f_equal. apply IH. lia.
  - apply sublist_length in Hsub. lia.
Qed.

Lemma settled_values_length evs : length (settled_values evs) = inserted_of evs.
Proof.
  induction evs as [|ev evs IH]; [done|].
  unfold settled_values in *. rewrite bind_cons, length_app, IH.
  change (inserted_of (ev :: evs)) with (rows_inserted ev + inserted_of evs).
  f_equal. unfold failed, rows_inserted, values_of.
  destruct (failure ev); [done|]. by destruct (stmt ev).
Qed.

Section StoredRows.
Variable insertData : list NewSheetData.t.
Variable chunkSize : nat.

Abbreviation chunk_start := (chunk_start chunkSize).
Abbreviation chunk_end := (chunk_end insertData chunkSize).
Abbreviation chunk_at := (chunk_at insertData chunkSize).
Abbreviation below := (below insertData chunkSize).

Lemma chunk_at_below k : chunk_at k = slice (below k) (below (S k)) insertData.
Proof.
  unfold chunk_at, chunk_end, chunk_start, below.
  destruct (decide (k * chunkSize ≤ length insertData)).
  - f_equal; lia.
  - unfold slice. rewrite !drop_ge by lia. by rewrite !take_nil.
Qed.

Lemma row_span_below k :
  slice (chunk_start k) (chunk_start k + (chunk_end k - chunk_start k)) insertData
  = slice (below k) (below (S k)) insertData.
Proof.
  unfold chunk_end, chunk_start, below.
  destruct (decide (k * chunkSize ≤ length insertData)).
  - f_equal; lia.
  - unfold slice. rewrite !drop_ge by lia. by rewrite !take_nil.
Qed.

(** Each row of the per-row loop is either stored or rejected. *)
Lemma row_events_partition trips i revs :
  row_events insertData trips i revs →
  settled_values revs ++ rejected_rows revs ≡ₚ slice i (i + trips) insertData.
Proof.
  induction 1 as [i|trips i v out revs Hv _ IH].
  - by rewrite Nat.add_0_r, slice_same.
  - replace (i + S trips) with (S i + trips) by lia.
    rewrite <-(slice_app insertData i (S i)) by lia.
    rewrite (slice_one _ _ _ Hv), <-IH.
    unfold settled_values, rejected_rows. rewrite !bind_cons.
    destruct out as [e|]; simpl; [|done].
    by rewrite <-Permutation_middle.
Qed.

Lemma row_events_sublist trips i revs :
  row_events insertData trips i revs →
  settled_values revs `sublist_of` slice i (i + trips) insertData.
Proof.
  induction 1 as [i|trips i v out revs Hv _ IH].
  - by rewrite Nat.add_0_r, slice_same.
  - replace (i + S trips) with (S i + trips) by lia.
    rewrite <-(slice_app insertData i (S i)) by lia.
    rewrite (slice_one _ _ _ Hv).
    unfold settled_values in *. rewrite bind_cons.
    destruct out as [e|]; simpl.
    + by apply sublist_cons.
    + by apply sublist_skip.
Qed.

Lemma below_le k trips : below k ≤ below (k + trips).
Proof. unfold below. nia. Qed.

Lemma below_next k : below k ≤ below (S k).
Proof. unfold below. lia. Qed.

Lemma chunk_events_partition trips k evs :
  chunk_events insertData chunkSize trips k evs →
  settled_values evs ++ rejected_rows evs
  ≡ₚ slice (below k) (below (k + trips)) insertData.
Proof.
  induction 1 as [k|trips k evs _ IH|trips k e revs evs Hrows _ IH].
  - by rewrite Nat.add_0_r, slice_same.
  - replace (k + S trips) with (S k + trips) by lia.
    rewrite <-(slice_app insertData (below k) (below (S k)))
      by (apply below_next || apply below_le).
    rewrite <-IH, <-chunk_at_below.
    unfold settled_values, rejected_rows. rewrite !bind_cons. simpl.
    by rewrite <-app_assoc.
  - replace (k + S trips) with (S k + trips) by lia.
    rewrite <-(slice_app insertData (below k) (below (S k)))
      by (apply below_next || apply below_le).
    rewrite <-IH, <-row_span_below, <-(row_events_partition _ _ _ Hrows).
    unfold settled_values, rejected_rows.
    rewrite !bind_cons, !bind_app. simpl. solve_Permutation.
Qed.

Lemma chunk_events_sublist trips k evs :
  chunk_events insertData chunkSize trips k evs →
  settled_values evs `sublist_of` slice (below k) (below (k + trips)) insertData.
Proof.
  induction 1 as [k|trips k evs _ IH|trips k e revs evs Hrows _ IH].
  - by rewrite Nat.add_0_r, slice_same.
  - replace (k + S trips) with (S k + trips) by lia.
    rewrite <-(slice_app insertData (below k) (below (S k)))
      by (apply below_next || apply below_le).
    rewrite <-chunk_at_below.
    unfold settled_values in *. rewrite bind_cons. simpl.
    by apply sublist_app.
  - replace (k + S trips) with (S k + trips) by lia.
    rewrite <-(slice_app insertData (below k) (below (S k)))
      by (apply below_next || apply below_le).
    rewrite <-row_span_below.
    unfold settled_values in *. rewrite bind_cons, bind_app. simpl.
    apply sublist_app; [|done]. by apply row_events_sublist.
Qed.
End StoredRows.

Lemma prepare_row_numbers b rows :
  NewSheetData.rowNumber <$> prepare b rows = seqZ 1 (Z.of_nat (length rows)).
Proof.
  apply list_eq. intros i. unfold prepare.
  rewrite list_lookup_fmap, list_lookup_imap.
  destruct (rows !! i) as [row|] eqn:Hrow; simpl.
  - apply lookup_lt_Some in Hrow as Hlt.
    rewrite lookup_seqZ_lt by lia. f_equal. lia.
  - apply lookup_ge_None in Hrow. by rewrite lookup_seqZ_ge by lia.
Qed.

Lemma prepare_cells w b rows :
  kept_cell w <$> prepare b rows = imap (read_back w) rows.
Proof. unfold prepare. by rewrite fmap_imap. Qed.

Lemma prepare_slice_all b rows :
  slice (below (prepare b rows) CHUNK_SIZE 0)
    (below (prepare b rows) CHUNK_SIZE (0 + ceil_div (length rows) CHUNK_SIZE))
    (prepare b rows)
  = prepare b rows.
Proof.
  rewrite Nat.add_0_l, <-(prepare_length b rows).
  rewrite below_total by apply CHUNK_SIZE_pos.
  unfold below. rewrite Nat.mul_0_l, Nat.min_0_l. by apply slice_all.
Qed.

(** The rows stored and the rows rejected one by one are the rows given. *)
Lemma writer_events_partition b rows evs :
  writer_events b rows evs →
  settled_values evs ++ rejected_rows evs ≡ₚ prepare b rows.
Proof.
  unfold writer_events, chunked. destruct (LARGE_DATASET <? length rows).
  - intros Hshape. apply chunk_events_partition in Hshape.
    by rewrite prepare_slice_all in Hshape.
  - intros (out & rest & -> & Hrest).
    unfold settled_values, rejected_rows. rewrite !bind_cons.
    destruct out as [e|]; simpl.
    + apply chunk_events_partition in Hrest.
      by rewrite prepare_slice_all in Hrest.
    + subst rest. simpl. by rewrite !app_nil_r.
Qed.

(** The rows stored are rows given, in the order given. *)
Lemma writer_events_sublist b rows evs :
  writer_events b rows evs → settled_values evs `sublist_of` prepare b rows.
Proof.
  unfold writer_events, chunked. destruct (LARGE_DATASET <? length rows).
  - intros Hshape. apply chunk_events_sublist in Hshape.
    by rewrite prepare_slice_all in Hshape.
  - intros (out & rest & -> & Hrest).
    unfold settled_values. rewrite !bind_cons.
    destruct out as [e|]; simpl.
    + apply chunk_events_sublist in Hrest.
      by rewrite prepare_slice_all in Hrest.
    + subst rest. simpl. by rewrite !app_nil_r.
Qed.

(** The errors name the rows that were rejected one by one. *)
Lemma row_events_errors b rows trips i revs :
  row_events (prepare b rows) trips i revs →
  (λ e, Z.of_nat (RowError.rowNumber e)) <$> errors_of rows revs
  = NewSheetData.rowNumber <$> rejected_rows revs.
Proof.
  induction 1 as [i|trips i v out revs Hv _ IH]; [done|].
  unfold rejected_rows in *. rewrite bind_cons.
  apply prepare_lookup in Hv as (_ & Hnumber & _).
  destruct out as [e|]; simpl.
  - change (errors_of rows (_ :: revs))
      with (RowError.mk i (i + 1) (default JUndefined (rows !! i))
              (getErrorMessage e) :: errors_of rows revs).
    simpl. rewrite Hnumber. f_equal. apply IH.
  - change (errors_of rows (_ :: revs)) with (errors_of rows revs). apply IH.
Qed.

Lemma chunk_events_errors b rows trips k evs :
  chunk_events (prepare b rows) CHUNK_SIZE trips k evs →
  (λ e, Z.of_nat (RowError.rowNumber e)) <$> errors_of rows evs
  = NewSheetData.rowNumber <$> rejected_rows evs.
Proof.
  induction 1 as [k|trips k evs _ IH|trips k e revs evs Hrows _ IH]; [done|..].
  - change (errors_of rows (_ :: evs)) with (errors_of rows evs).
    unfold rejected_rows in *. by rewrite bind_cons.
  - change (errors_of rows (_ :: revs ++ evs)) with (errors_of rows (revs ++ evs)).
    unfold rejected_rows in *. rewrite bind_cons, bind_app. simpl.
    rewrite errors_of_app, !fmap_app, IH.
    by rewrite (row_events_errors _ _ _ _ _ Hrows).
Qed.

Lemma writer_events_errors b rows evs :
  writer_events b rows evs →
  (λ e, Z.of_nat (RowError.rowNumber e)) <$> errors_of rows evs
  = NewSheetData.rowNumber <$> rejected_rows evs.
Proof.
  unfold writer_events, chunked. destruct (LARGE_DATASET <? length rows).
  - apply chunk_events_errors.
  - intros (out & rest & -> & Hrest).
    change (errors_of rows (_ :: rest)) with (errors_of rows rest).
    unfold rejected_rows. rewrite bind_cons. simpl.
    destruct out as [e|]; [by eapply chunk_events_errors|by subst rest].
Qed.

(** ** Uploads on the relational store *)

Lemma stamp_cells w vs : stored_cell <$> stamp w vs = kept_cell w <$> vs.
Proof.
  apply list_eq. intros i. unfold stamp.
  rewrite !list_lookup_fmap, list_lookup_imap. by destruct (vs !! i).
Qed.

Lemma stamp_batch_ids w vs :
  SheetData.batchId <$> stamp w vs = NewSheetData.batchId <$> vs.
Proof.
  apply list_eq. intros i. unfold stamp.
  rewrite !list_lookup_fmap, list_lookup_imap. by destruct (vs !! i).
Qed.

(** An insert changes neither the schedule of failures nor the column. *)
Lemma pg_insert_down vs (w w' : Pg) r :
  pg_insert vs w = (r, w') →
  down w' = down w ∧ refused w' = refused w ∧ kept w' = kept w.
Proof.
  unfold pg_insert.
  repeat (destruct (_ : bool); [by intros [= <- <-]|]).
  destruct (jsonb_error w vs); [by intros [= <- <-]|].
  repeat (destruct (_ : bool); [by intros [= <- <-]|]).
  by intros [= <- <-].
Qed.

(** The table after a sequence of inserts: the rows of the settled
    statements are appended, in the order sent, with their payloads as the
    column keeps them. *)
Lemma inserts_sent_pg_rows (w w' : Pg) evs :
  inserts_sent w evs w' →
  (down w' = down w ∧ refused w' = refused w ∧ kept w' = kept w)
  ∧ ∃ added,
      table w' = table w ++ added
      ∧ stored_cell <$> added = kept_cell w <$> settled_values evs
      ∧ SheetData.batchId <$> added = NewSheetData.batchId <$> settled_values evs.
Proof.
  induction 1 as [w|w from vs r w1 evs w2 Hins _
                    ((Hdown & Hrefused & Hkept) & added & Htable & Hcells & Hids)].
  { split; [done|]. exists []. by rewrite app_nil_r. }
  pose proof (pg_insert_down _ _ _ _ Hins) as (Hdown1 & Hrefused1 & Hkept1).
  apply pg_insert_table in Hins.
  split; [repeat split; congruence|].
  unfold kept_cell in Hcells. rewrite Hkept1 in Hcells. fold (kept_cell w) in Hcells.
  unfold settled_values in *. rewrite bind_cons.
  destruct r as [e|[]]; simpl.
  - exists added. rewrite app_nil_r in Hins. by rewrite Htable, Hins.
  - exists (stamp w vs ++ added). rewrite Htable, Hins, app_assoc.
    split; [done|]. by rewrite !fmap_app, stamp_cells, stamp_batch_ids, Hcells, Hids.
Qed.

Lemma getNextBatchId_pg_int4 tableName (s s1 : State Pg) b :
  getNextBatchId tableName s = (inr b, s1) → int4 b = true.
Proof.
  intros Halloc. apply getNextBatchId_pg in Halloc as Hid. destruct Hid as [-> _].
  revert Halloc. unfold getNextBatchId, mbind, M_bind, await_query. simpl.
  unfold pg_query.
  destruct (down (world s) (clock (world s))); [done|].
  destruct (negb (String.eqb tableName "sheet_data")); [done|].
  by destruct (int4 (next_batch_id_of (table (world s)))).
Qed.

(** A returned upload on the relational store, in full: what it sent, what
    it answered and what it left in the table. *)
Lemma storeSheetData_pg_rows rows tableName (s s1 : State Pg) result :
  storeSheetData (JArr rows) tableName s = (inr result, s1) →
  ∃ evs added,
    result = StoreSheetDataResult.mk true (next_batch_id_of (table (world s)))
               (inserted_of evs) (errors_of rows evs)
    ∧ writer_events (next_batch_id_of (table (world s))) rows evs
    ∧ int4 (next_batch_id_of (table (world s))) = true
    ∧ down (world s1) = down (world s)
    ∧ table (world s1) = table (world s) ++ added
    ∧ stored_cell <$> added = kept_cell (world s) <$> settled_values evs
    ∧ SheetData.batchId <$> added = NewSheetData.batchId <$> settled_values evs.
Proof.
  intros Hstore.
  destruct (decide (rows = [])) as [->|Hne]; [done|].
  pose proof (storeSheetData_run rows tableName s Hne) as Hrun.
  pose proof (getNextBatchId_pg_table tableName s) as Htable.
  unfold state_after in Htable.
  destruct (getNextBatchId tableName s) as [[e|b] s0] eqn:Halloc.
  { by rewrite Hrun in Hstore. }
  destruct Hrun as (evs & w' & Hrun & Hsent & Hshape).
  rewrite Hrun in Hstore. injection Hstore as <- <-.
  apply getNextBatchId_pg_int4 in Halloc as Hrange.
  apply getNextBatchId_pg in Halloc as [-> Hworld]. simpl in *.
  apply inserts_sent_pg_rows
    in Hsent as ((Hdown & _ & _) & added & Hadded & Hcells & Hids).
  rewrite Hworld in Hcells.
  change (kept_cell (tick (world s))) with (kept_cell (world s)) in Hcells.
  exists evs, added. rewrite Hadded, Htable, Hdown, Hworld. done.
Qed.

(** A settled insert holds only payloads the [data] column takes. *)
Lemma pg_insert_taken vs (w w' : Pg) :
  pg_insert vs w = (inr (), w') →
  Forall (λ v, takes w (NewSheetData.data v) = true) vs.
Proof.
  unfold pg_insert.
  destruct (down w (clock w)); [done|].
  destruct (negb (forallb _ vs)); [done|].
  destruct (jsonb_error w vs) eqn:Herror; [done|].
  destruct (existsb _ vs) eqn:Hnull; [done|]. intros _.
  unfold jsonb_error, takes in *.
  induction vs as [|v vs IH]; [done|].
  simpl in Hnull. apply orb_false_iff in Hnull as [Hv Hnull].
  simpl in Herror. rewrite Hv in Herror.
  destruct (refused w (NewSheetData.data v)) eqn:Hrefused; [done|].
  constructor; [by rewrite Hv, Hrefused|by apply IH].
Qed.

Lemma inserts_sent_taken (w w' : Pg) evs :
  inserts_sent w evs w' →
  Forall (λ v, takes w (NewSheetData.data v) = true) (settled_values evs).
Proof.
  induction 1 as [w|w from vs r w1 evs w2 Hins _ IH]; [done|].
  pose proof (pg_insert_down _ _ _ _ Hins) as (_ & Hrefused & _).
  unfold takes in IH. rewrite Hrefused in IH.
  unfold settled_values in *. rewrite bind_cons.
  destruct r as [e|[]]; simpl; [done|].
  apply Forall_app. split; [by eapply pg_insert_taken|done].
Qed.

(** An upload that returned without an error was given only rows the
    [data] column takes. *)
Lemma storeSheetData_pg_taken rows tableName (s s1 : State Pg) result :
  storeSheetData (JArr rows) tableName s = (inr result, s1) →
  StoreSheetDataResult.errors result = [] →
  Forall (λ row, takes (world s) row = true) rows.
Proof.
  intros Hstore Hnone.
  destruct (decide (rows = [])) as [->|Hne]; [done|].
  pose proof (storeSheetData_run rows tableName s Hne) as Hrun.
  destruct (getNextBatchId tableName s) as [[e|b] s0] eqn:Halloc.
  { by rewrite Hrun in Hstore. }
  destruct Hrun as (evs & w' & Hrun & Hsent & Hshape).
  rewrite Hrun in Hstore. injection Hstore as <- <-. simpl in Hnone.
  apply getNextBatchId_pg in Halloc as [_ Hworld].
  apply inserts_sent_taken in Hsent. rewrite Hworld in Hsent.
  pose proof (writer_events_count _ _ _ Hshape) as Hcount.
  rewrite Hnone in Hcount. simpl in Hcount.
  assert (settled_values evs = prepare b rows) as Hall.
  { apply sublist_same_length; [by apply writer_events_sublist|].
    rewrite settled_values_length, prepare_length. lia. }
  rewrite Hall in Hsent. rewrite Forall_forall in Hsent.
  apply Forall_forall. intros row Hrow.
  apply list_elem_of_lookup in Hrow as [i Hi].
  apply (Hsent (NewSheetData.mk b (Z.of_nat (i + 1)) row)).
  apply list_elem_of_lookup. exists i.
  unfold prepare. by rewrite list_lookup_imap, Hi.
Qed.

Lemma sublist_Forall {A} (P : A → Prop) (l1 l2 : list A) :
  l1 `sublist_of` l2 → Forall P l2 → Forall P l1.
Proof.
  induction 1 as [|x l1 l2 _ IH|x l1 l2 _ IH]; intros Hall; [done|..].
  - apply Forall_cons in Hall as [? ?]. constructor; auto.
  - apply Forall_cons in Hall as [? ?]. auto.
Qed.

Lemma StronglySorted_sublist {A} (R : relation A) (l1 l2 : list A) :
  l1 `sublist_of` l2 → StronglySorted R l2 → StronglySorted R l1.
Proof.
  induction 1 as [|x l1 l2 Hsub IH|x l1 l2 _ IH]; intros Hsorted; [done|..].
  - apply StronglySorted_cons in Hsorted as [Hx Hsorted].
    apply StronglySorted_cons. split; [|auto]. by apply (sublist_Forall _ _ l2).
  - apply StronglySorted_cons in Hsorted as [_ Hsorted]. auto.
Qed.

Lemma seqZ_increasing m n : StronglySorted Z.lt (seqZ m n).
Proof.
  unfold seqZ. generalize (Z.to_nat n) as len. intros len.
  generalize 0 as j. induction len as [|len IH]; intros j; simpl; [constructor|].
  constructor; [apply IH|].
  apply Forall_fmap, Forall_seq. intros k Hk. simpl. lia.
Qed.

Lemma filter_none {A} (P : A → Prop) `{∀ x, Decision (P x)} (l : list A) :
  Forall (λ x, ¬ P x) l → filter P l = [].
Proof.
  induction 1 as [|x l Hx _ IH]; [done|]. by rewrite filter_cons_False.
Qed.

Lemma filter_all {A} (P : A → Prop) `{∀ x, Decision (P x)} (l : list A) :
  Forall P l → filter P l = l.
Proof.
  induction 1 as [|x l Hx _ IH]; [done|]. by rewrite filter_cons_True, IH.
Qed.

Lemma max_batch_id_ge t r :
  r ∈ t → ∃ m, max_batch_id t = Some m ∧ (SheetData.batchId r ≤ m)%Z.
Proof.
  induction t as [|x t IH]; intros Hin; [by apply elem_of_nil in Hin|].
  simpl. apply elem_of_cons in Hin as [->|Hin].
  - destruct (max_batch_id t); eexists; split; try done; lia.
  - destruct (IH Hin) as (m & -> & Hm). eexists. split; [done|]. lia.
Qed.

(** The next id is above every id in the table. *)
Lemma next_batch_id_fresh t r :
  r ∈ t → (SheetData.batchId r < next_batch_id_of t)%Z.
Proof.
  intros Hin. unfold next_batch_id_of.
  destruct (max_batch_id_ge t r Hin) as (m & -> & Hm). simpl. lia.
Qed.

(** Sorting rows that already ascend strictly by row number changes nothing. *)
Lemma merge_sort_ascending (l : list SheetData.t) :
  StronglySorted Z.lt (SheetData.rowNumber <$> l) →
  merge_sort by_row_number l = l.
Proof.
  intros Hsorted.
  assert (Hnodup : NoDup (SheetData.rowNumber <$> l)).
  { induction Hsorted as [|x l' _ IH Hx]; constructor; [|done].
    rewrite Forall_forall in Hx. intros Hin. specialize (Hx _ Hin). lia. }
  assert (Hasc : Sorted by_row_number l).
  { apply StronglySorted_Sorted.
    induction l as [|x l IH]; [constructor|].
    rewrite fmap_cons in Hsorted, Hnodup.
    apply StronglySorted_cons in Hsorted as [Hx Hsorted].
    apply NoDup_cons in Hnodup as [_ Hnodup].
    constructor; [by apply IH|].
    rewrite Forall_fmap in Hx. eapply Forall_impl; [exact Hx|].
    intros y Hy. unfold by_row_number. simpl in Hy. lia. }
  apply (Sorted_unique_strong by_row_number).
  - intros x1 x2 Hx1 Hx2 H12 H21. rewrite merge_sort_Permutation in Hx1.
    apply (NoDup_fmap_eq SheetData.rowNumber l); [done..|].
    unfold by_row_number in *. lia.
  - apply Sorted_merge_sort, _.
  - done.
  - apply merge_sort_Permutation.
Qed.

Lemma stored_cell_row_numbers (l : list SheetData.t) :
  SheetData.rowNumber <$> l = (stored_cell <$> l).*1.
Proof. by rewrite <-list_fmap_compose. Qed.

Lemma kept_cell_row_numbers w (l : list NewSheetData.t) :
  NewSheetData.rowNumber <$> l = (kept_cell w <$> l).*1.
Proof. by rewrite <-list_fmap_compose. Qed.

(** X1. After [storeSheetData] returns, each row given is either in the
    table under the batch id returned or named in [errors], never both:
    the row numbers added to the table and those of the errors are
    together 1, ..., n, each once; nothing else is added and no earlier row
    is touched. *)
Theorem upload_stores_or_reports_each_row rows tableName (s s1 : State Pg) result :
  storeSheetData (JArr rows) tableName s = (inr result, s1) →
  ∃ added,
    table (world s1) = table (world s) ++ added
    ∧ Forall (λ r, SheetData.batchId r = StoreSheetDataResult.batchId result) added
    ∧ (SheetData.rowNumber <$> added)
      ++ ((λ e, Z.of_nat (RowError.rowNumber e))
            <$> StoreSheetDataResult.errors result)
      ≡ₚ seqZ 1 (Z.of_nat (length rows)).
Proof.
  intros Hstore.
  destruct (storeSheetData_pg_rows _ _ _ _ _ Hstore)
    as (evs & added & -> & Hshape & _ & _ & Htable & Hcells & Hids).
  exists added. split; [done|]. simpl. split.
  - apply Forall_fmap with (f := SheetData.batchId) (P := λ b, b = _).
    rewrite Hids. apply Forall_fmap.
    apply (sublist_Forall _ _ _ (writer_events_sublist _ _ _ Hshape)).
    apply prepare_batch.
  - rewrite stored_cell_row_numbers, Hcells, <-kept_cell_row_numbers.
    rewrite (writer_events_errors _ _ _ Hshape), <-fmap_app.
    rewrite (writer_events_partition _ _ _ Hshape).
    by rewrite prepare_row_numbers.
Qed.

Lemma upload_stores_or_reports_each_row_witness :
  let s := fresh (down_at [1; 2; 4]) in
  let s1 := state_after (storeSheetData (JArr three_rows) "sheet_data") s in
  let result := StoreSheetDataResult.mk true 1 2
                  [RowError.mk 1 2 (sample_row 2)
                     "Connection terminated unexpectedly"] in
  storeSheetData (JArr three_rows) "sheet_data" s = (inr result, s1)
  ∧ ∃ added,
      table (world s1) = table (world s) ++ added
      ∧ Forall (λ r, SheetData.batchId r = 1%Z) added
      ∧ (SheetData.rowNumber <$> added)
        ++ ((λ e, Z.of_nat (RowError.rowNumber e))
              <$> StoreSheetDataResult.errors result)
        ≡ₚ seqZ 1 (Z.of_nat (length three_rows)).
Proof.
  intros s s1 result.
  assert (Hrun : storeSheetData (JArr three_rows) "sheet_data" s = (inr result, s1))
    by (vm_compute; reflexivity).
  split; [exact Hrun|].
  exact (upload_stores_or_reports_each_row three_rows "sheet_data" s s1 result Hrun).
Defined.

Lemma fetchBatchData_pg_returns toString batchId (s s1 : State Pg) rows :
  fetchBatchData toString batchId s = (inr rows, s1) →
  isNaN batchId || number_lt batchId (number_of_Z 1) = false
  ∧ ∃ z, number_to_Z batchId = Some z ∧ int4 z = true
         ∧ rows = select_batch z (table (world s))
         ∧ table (world s1) = table (world s)
         ∧ down (world s1) = down (world s).
Proof.
  unfold fetchBatchData.
  destruct (isNaN batchId || number_lt batchId (number_of_Z 1)); [done|].
  unfold mbind, M_bind, await_select. simpl. unfold pg_select.
  destruct (down (world s) (clock (world s))); [done|].
  destruct (number_to_Z batchId) as [z|]; [|done].
  destruct (int4 z) eqn:Hrange; [|done].
  intros [= <- <-]. split; [done|]. by exists z.
Qed.

Lemma fetchBatchData_pg_answers toString batchId (s : State Pg) z :
  isNaN batchId || number_lt batchId (number_of_Z 1) = false →
  number_to_Z batchId = Some z → int4 z = true →
  down (world s) (clock (world s)) = false →
  (fetchBatchData toString batchId s).1 = inr (select_batch z (table (world s))).
Proof.
  intros Hguard Hz Hrange Hup. unfold fetchBatchData. rewrite Hguard.
  unfold mbind, M_bind, await_select. simpl. unfold pg_select.
  by rewrite Hup, Hz, Hrange.
Qed.

(** What selecting the batch of a returned upload gives: the rows it added,
    [inserted] many, a sub-sequence of the rows given. *)
Lemma storeSheetData_pg_select rows tableName (s s1 : State Pg) result :
  storeSheetData (JArr rows) tableName s = (inr result, s1) →
  int4 (StoreSheetDataResult.batchId result) = true
  ∧ length (select_batch (StoreSheetDataResult.batchId result) (table (world s1)))
    = StoreSheetDataResult.inserted result
  ∧ stored_cell <$> select_batch (StoreSheetDataResult.batchId result)
                      (table (world s1))
    `sublist_of` imap (read_back (world s)) rows
  ∧ StoreSheetDataResult.inserted result
    + length (StoreSheetDataResult.errors result) = length rows.
Proof.
  intros Hstore.
  destruct (storeSheetData_pg_rows _ _ _ _ _ Hstore)
    as (evs & added & -> & Hshape & Hrange & _ & Htable & Hcells & Hids).
  simpl in *. set (b := next_batch_id_of (table (world s))) in *.
  pose proof (writer_events_sublist _ _ _ Hshape) as Hsub.
  assert (Hbatch : Forall (λ r, SheetData.batchId r = b) added).
  { apply Forall_fmap with (f := SheetData.batchId) (P := λ x, x = b).
    rewrite Hids. apply Forall_fmap.
    apply (sublist_Forall _ _ _ Hsub), prepare_batch. }
  assert (Hselect : select_batch b (table (world s1)) = added).
  { unfold select_batch. rewrite Htable, filter_app.
    rewrite filter_none, filter_all by
      (done || (apply Forall_forall; intros r Hr;
                pose proof (next_batch_id_fresh _ _ Hr); unfold b; lia)).
    simpl. apply merge_sort_ascending.
    rewrite stored_cell_row_numbers, Hcells, <-kept_cell_row_numbers.
    apply (StronglySorted_sublist _ _ (NewSheetData.rowNumber <$> prepare b rows)).
    - by apply fmap_sublist.
    - rewrite prepare_row_numbers. apply seqZ_increasing. }
  rewrite Hselect. split; [done|]. split; [|split].
  - rewrite <-settled_values_length, <-(length_fmap stored_cell), Hcells.
    by rewrite length_fmap.
  - rewrite Hcells, <-(prepare_cells (world s) b). by apply fmap_sublist.
  - by apply (writer_events_count b).
Qed.

(** X2. Reading a batch back after the upload that created it: the rows
    fetched are [inserted] many; they are rows of the upload at their
    1-based positions, in the order given, each with the payload the [data]
    column keeps of the row given (jsonb's own form of it, whatever that
    is); when the upload reported no error they are all the rows given. *)
Theorem fetch_after_upload toString rows tableName (s s1 : State Pg) result :
  storeSheetData (JArr rows) tableName s = (inr result, s1) →
  (1 ≤ StoreSheetDataResult.batchId result)%Z →
  down (world s1) (clock (world s1)) = false →
  ∃ fetched s2,
    fetchBatchData toString (number_of_Z (StoreSheetDataResult.batchId result)) s1
    = (inr fetched, s2)
    ∧ length fetched = StoreSheetDataResult.inserted result
    ∧ stored_cell <$> fetched
      `sublist_of` imap (read_back (world s)) rows
    ∧ (StoreSheetDataResult.errors result = [] →
       stored_cell <$> fetched = imap (read_back (world s)) rows).
Proof.
  intros Hstore Hpositive Hup.
  destruct (storeSheetData_pg_select _ _ _ _ _ Hstore)
    as (Hrange & Hlen & Hsub & Hcount).
  pose proof (fetchBatchData_pg_answers toString
                (number_of_Z (StoreSheetDataResult.batchId result)) s1 _
                (positive_integer_passes_guard _ Hpositive)
                (number_to_Z_of_Z _) Hrange Hup) as Hfetch.
  destruct (fetchBatchData toString _ s1) as [r s2].
  simpl in Hfetch. subst r. eexists _, s2. split; [done|].
  split; [done|]. split; [done|]. intros Hnone.
  apply sublist_same_length; [done|].
  rewrite Hnone in Hcount. simpl in Hcount.
  rewrite length_imap, length_fmap. lia.
Qed.

Lemma fetch_after_upload_witness :
  let s := fresh (down_at [1; 2; 4]) in
  let s1 := state_after (storeSheetData (JArr three_rows) "sheet_data") s in
  let result := StoreSheetDataResult.mk true 1 2
                  [RowError.mk 1 2 (sample_row 2)
                     "Connection terminated unexpectedly"] in
  storeSheetData (JArr three_rows) "sheet_data" s = (inr result, s1)
  ∧ (1 ≤ 1)%Z
  ∧ down (world s1) (clock (world s1)) = false
  ∧ ∃ fetched s2,
      fetchBatchData sample_toString (number_of_Z 1) s1 = (inr fetched, s2)
      ∧ length fetched = 2
      ∧ stored_cell <$> fetched
        `sublist_of` imap (read_back (world s)) three_rows
      ∧ (StoreSheetDataResult.errors result = [] →
         stored_cell <$> fetched
         = imap (read_back (world s)) three_rows).
Proof.
  intros s s1 result.
  assert (Hrun : storeSheetData (JArr three_rows) "sheet_data" s = (inr result, s1))
    by (vm_compute; reflexivity).
  split; [exact Hrun|]. split; [lia|]. split; [reflexivity|].
  exact (fetch_after_upload sample_toString three_rows "sheet_data" s s1 result
           Hrun ltac:(simpl; lia) eq_refl).
Defined.

(** ** Reads on the relational store *)



(** X4. An upload leaves every other batch as it was: what a batch read
    before the upload reads the same after it, unless the upload was given
    that very batch id. *)
Theorem upload_leaves_other_batches toString sheetData tableName z
    (s sa sb : State Pg) before outcome :
  fetchBatchData toString (number_of_Z z) s = (inr before, sa) →
  storeSheetData sheetData tableName sa = (outcome, sb) →
  (∀ result, outcome = inr result → StoreSheetDataResult.batchId result ≠ z) →
  down (world sb) (clock (world sb)) = false →
  (fetchBatchData toString (number_of_Z z) sb).1 = inr before.
Proof.
  intros Hfetch Hstore Hother Hup.
  apply fetchBatchData_pg_returns in Hfetch
    as (Hguard & z' & Hz & Hrange & -> & Htable & _).
  rewrite number_to_Z_of_Z in Hz. injection Hz as <-.
  rewrite (fetchBatchData_pg_answers _ _ _ z)
    by (done || apply number_to_Z_of_Z).
  f_equal. pose proof (storeSheetData_pg sheetData tableName sa) as Hstep.
  rewrite Hstore in Hstep. rewrite <-Htable. destruct outcome as [e|result].
  - by rewrite Hstep.
  - destruct Hstep as (_ & added & -> & _ & Hbatch).
    unfold select_batch. rewrite filter_app, (filter_none _ added), app_nil_r; [done|].
    eapply Forall_impl; [exact Hbatch|]. intros r ->. by apply Hother.
Qed.

Lemma upload_leaves_other_batches_witness :
  let s := state_after (storeSheetData (JArr three_rows) "sheet_data")
             (fresh always_up) in
  let first := fetchBatchData sample_toString (number_of_Z 1) s in
  let second := storeSheetData (JArr three_rows) "sheet_data" first.2 in
  fetchBatchData sample_toString (number_of_Z 1) s
  = (inr (select_batch 1 (table (world s))), first.2)
  ∧ storeSheetData (JArr three_rows) "sheet_data" first.2
    = (inr (StoreSheetDataResult.mk true 2 3 []), second.2)
  ∧ (∀ result, @inr Thrown _ (StoreSheetDataResult.mk true 2 3 []) = inr result →
               StoreSheetDataResult.batchId result ≠ 1%Z)
  ∧ down (world second.2) (clock (world second.2)) = false
  ∧ (fetchBatchData sample_toString (number_of_Z 1) second.2).1
    = inr (select_batch 1 (table (world s))).
Proof.
  intros s first second.
  assert (H1 : fetchBatchData sample_toString (number_of_Z 1) s
               = (inr (select_batch 1 (table (world s))), first.2))
    by (vm_compute; reflexivity).
  assert (H2 : storeSheetData (JArr three_rows) "sheet_data" first.2
               = (inr (StoreSheetDataResult.mk true 2 3 []), second.2))
    by (vm_compute; reflexivity).
  assert (H3 : ∀ result, @inr Thrown _ (StoreSheetDataResult.mk true 2 3 [])
                         = inr result →
               StoreSheetDataResult.batchId result ≠ 1%Z)
    by (by intros result [= <-]).
  split; [exact H1|]. split; [exact H2|]. split; [exact H3|].
  split; [reflexivity|].
  exact (upload_leaves_other_batches sample_toString _ _ 1 s first.2 second.2
           _ _ H1 H2 H3 eq_refl).
Defined.

(** ** Batch ids do not collide in sequential use *)

Lemma stamp_keys w vs : batch_row <$> stamp w vs = new_batch_row <$> vs.
Proof.
  apply list_eq. intros i. unfold stamp.
  rewrite !list_lookup_fmap, list_lookup_imap. by destruct (vs !! i).
Qed.

Lemma prepare_keys_distinct b rows : NoDup (new_batch_row <$> prepare b rows).
Proof.
  apply (NoDup_fmap_1 snd). rewrite <-list_fmap_compose.
  change (snd ∘ new_batch_row) with NewSheetData.rowNumber.
  rewrite prepare_row_numbers. apply NoDup_seqZ.
Qed.

(** The keys of rows prepared under the next id are new to the table. *)
Lemma prepare_keys_fresh t rows :
  unique_batch_row t →
  NoDup ((batch_row <$> t)
         ++ (new_batch_row <$> prepare (next_batch_id_of t) rows)).
Proof.
  intros Hunique. apply NoDup_app. split; [done|]. split.
  - intros key Hold Hnew.
    apply list_elem_of_fmap in Hold as (r & -> & Hr).
    apply list_elem_of_fmap in Hnew as (v & Hkey & Hv).
    apply list_elem_of_lookup in Hv as [i Hi].
    apply prepare_lookup in Hi as (Hb & _).
    apply next_batch_id_fresh in Hr.
    unfold batch_row, new_batch_row in Hkey. injection Hkey as Hkey _. lia.
  - apply prepare_keys_distinct.
Qed.

Lemma prepare_in_range b rows :
  int4 b = true → length rows ≤ N.to_nat 10000 →
  forallb (λ v, int4 (NewSheetData.batchId v) && int4 (NewSheetData.rowNumber v))
    (prepare b rows) = true.
Proof.
  intros Hb Hlen. apply forallb_forall. intros v Hv.
  apply list_elem_of_In, list_elem_of_lookup in Hv as [i Hi].
  apply lookup_lt_Some in Hi as Hlt. rewrite prepare_length in Hlt.
  apply prepare_lookup in Hi as (-> & -> & _). rewrite Hb. simpl.
  unfold int4. apply bool_decide_eq_true. lia.
Qed.

Lemma taken_rows_pass w vs :
  Forall (λ v, takes w (NewSheetData.data v) = true) vs →
  jsonb_error w vs = None
  ∧ existsb (λ v, is_sql_null (NewSheetData.data v)) vs = false.
Proof.
  unfold jsonb_error, takes.
  induction 1 as [|v vs Hv _ [IHerror IHnull]]; [done|].
  apply andb_true_iff in Hv as [Hnull Hjsonb].
  apply negb_true_iff in Hnull. simpl. rewrite Hnull. simpl.
  by destruct (refused w (NewSheetData.data v)).
Qed.

Lemma prepare_taken w b rows :
  Forall (λ row, takes w row = true) rows →
  Forall (λ v, takes w (NewSheetData.data v) = true) (prepare b rows).
Proof.
  rewrite !Forall_forall. intros Hrows v Hv.
  apply list_elem_of_lookup in Hv as [i Hi].
  apply prepare_lookup in Hi as (_ & _ & Hrow).
  apply Hrows. apply list_elem_of_lookup. by exists i.
Qed.

(** X5. On a store that holds the uniqueness constraint and answers, an
    upload of at most 10000 rows, each of which the [data] column takes
    (none is null and jsonb refuses none), meets no key already present
    under the id the allocator returns: the one bulk insert is accepted,
    every row is inserted, and the constraint still holds. *)
Theorem sequential_upload_is_collision_free rows (s : State Pg) :
  rows ≠ [] →
  length rows ≤ N.to_nat 10000 →
  Forall (λ row, takes (world s) row = true) rows →
  unique_batch_row (table (world s)) →
  int4 (next_batch_id_of (table (world s))) = true →
  down (world s) (clock (world s)) = false →
  down (world s) (S (clock (world s))) = false →
  ∃ s1,
    storeSheetData (JArr rows) "sheet_data" s
    = (inr (StoreSheetDataResult.mk true (next_batch_id_of (table (world s)))
              (length rows) []), s1)
    ∧ length (table (world s1)) = length (table (world s)) + length rows
    ∧ unique_batch_row (table (world s1)).
Proof.
  intros Hne Hsmall Htaken Hunique Hrange Hup0 Hup1.
  set (b := next_batch_id_of (table (world s))) in *.
  assert (Halloc : getNextBatchId "sheet_data" s
                   = (inr b, extend s [{| site := Allocate;
                                          stmt := SqlNextBatchId "sheet_data";
                                          failure := None |}] (tick (world s)))).
  { unfold getNextBatchId, mbind, M_bind, await_query. simpl. unfold pg_query.
    rewrite Hup0. simpl. fold b. rewrite Hrange. simpl.
    by rewrite parseInt_pretty. }
  pose proof (storeSheetData_run rows "sheet_data" s Hne) as Hrun.
  rewrite Halloc in Hrun.
  destruct Hrun as (evs & w' & Hrun & Hsent & Hshape).
  unfold writer_events in Hshape.
  change (N.to_nat 10000) with LARGE_DATASET in Hsmall.
  destruct (Nat.ltb_spec LARGE_DATASET (length rows)) as [?|_]; [lia|].
  destruct Hshape as (out & rest & -> & Hrest).
  inversion Hsent as [|? ? ? r w1 ? ? Hdb Hsent']; subst.
  simpl in Hdb. unfold pg_insert in Hdb. simpl in Hdb.
  rewrite Hup1, (prepare_in_range b rows Hrange Hsmall) in Hdb. simpl in Hdb.
  destruct (taken_rows_pass (tick (world s)) (prepare b rows)
              (prepare_taken (world s) b rows Htaken)) as [Herror Hnull].
  rewrite Herror, Hnull in Hdb.
  rewrite bool_decide_eq_true_2 in Hdb by (by apply prepare_keys_fresh).
  simpl in Hdb. injection Hdb as <- <-. simpl in Hrest. subst rest.
  inversion Hsent'; subst.
  eexists. split; [|split].
  - rewrite Hrun. f_equal. f_equal.
    change (inserted_of [_]) with (length (prepare b rows) + 0).
    by rewrite prepare_length, Nat.add_0_r.
  - simpl. by rewrite length_app, stamp_length, prepare_length.
  - simpl. unfold unique_batch_row. rewrite fmap_app, stamp_keys.
    by apply prepare_keys_fresh.
Qed.

Lemma sequential_upload_is_collision_free_witness :
  let s := state_after (storeSheetData (JArr three_rows) "sheet_data")
             (fresh always_up) in
  three_rows ≠ []
  ∧ length three_rows ≤ N.to_nat 10000
  ∧ Forall (λ row, takes (world s) row = true) three_rows
  ∧ unique_batch_row (table (world s))
  ∧ int4 (next_batch_id_of (table (world s))) = true
  ∧ down (world s) (clock (world s)) = false
  ∧ down (world s) (S (clock (world s))) = false
  ∧ ∃ s1,
      storeSheetData (JArr three_rows) "sheet_data" s
      = (inr (StoreSheetDataResult.mk true (next_batch_id_of (table (world s)))
                (length three_rows) []), s1)
      ∧ length (table (world s1)) = length (table (world s)) + length three_rows
      ∧ unique_batch_row (table (world s1)).
Proof.
  intros s.
  assert (Hsmall : length three_rows ≤ N.to_nat 10000) by (simpl; lia).
  assert (Hunique : unique_batch_row (table (world s))).
  { unfold unique_batch_row.
    assert (Hdec : bool_decide (NoDup (batch_row <$> table (world s))) = true)
      by (vm_compute; reflexivity).
    by apply bool_decide_eq_true in Hdec. }
  assert (Htaken : Forall (λ row, takes (world s) row = true) three_rows)
    by (repeat constructor).
  split; [done|]. split; [exact Hsmall|]. split; [exact Htaken|].
  split; [exact Hunique|].
  split; [reflexivity|]. split; [reflexivity|]. split; [reflexivity|].
  exact (sequential_upload_is_collision_free three_rows s ltac:(done) Hsmall
           Htaken Hunique eq_refl eq_refl eq_refl).
Defined.

(** ** The uniqueness constraint is kept *)






(** ** The errors of an upload name real rows *)

Section ErrorIndices.
Variable insertData : list NewSheetData.t.
Variable chunkSize : nat.
Variable rows : list SheetDataRow.

Abbreviation chunk_start := (chunk_start chunkSize).
Abbreviation chunk_end := (chunk_end insertData chunkSize).
Abbreviation below := (below insertData chunkSize).

Lemma row_events_error_indices trips i revs :
  row_events insertData trips i revs →
  RowError.rowIndex <$> errors_of rows revs `sublist_of` seq i trips.
Proof.
  induction 1 as [i|trips i v out revs Hv _ IH]; [done|].
  destruct out as [e|].
  - change (errors_of rows (_ :: revs))
      with (RowError.mk i (i + 1) (default JUndefined (rows !! i))
              (getErrorMessage e) :: errors_of rows revs).
    simpl. by apply sublist_skip.
  - change (errors_of rows (_ :: revs)) with (errors_of rows revs).
    simpl. by apply sublist_cons.
Qed.

Lemma chunk_events_error_indices trips k evs :
  chunk_events insertData chunkSize trips k evs →
  RowError.rowIndex <$> errors_of rows evs
  `sublist_of` seq (below k) (below (k + trips) - below k).
Proof.
  induction 1 as [k|trips k evs _ IH|trips k e revs evs Hrows _ IH].
  - apply sublist_nil_l.
  - change (errors_of rows (_ :: evs)) with (errors_of rows evs).
    replace (k + S trips) with (S k + trips) by lia.
    pose proof (below_next insertData chunkSize k).
    pose proof (below_le insertData chunkSize (S k) trips).
    replace (below (S k + trips) - below k)
      with ((below (S k) - below k) + (below (S k + trips) - below (S k)))
      by lia.
    rewrite seq_app. apply sublist_inserts_l.
    by replace (below k + (below (S k) - below k)) with (below (S k)) by lia.
  - change (errors_of rows (_ :: revs ++ evs)) with (errors_of rows (revs ++ evs)).
    rewrite errors_of_app, fmap_app.
    replace (k + S trips) with (S k + trips) by lia.
    pose proof (below_next insertData chunkSize k).
    pose proof (below_le insertData chunkSize (S k) trips).
    replace (below (S k + trips) - below k)
      with ((below (S k) - below k) + (below (S k + trips) - below (S k)))
      by lia.
    rewrite seq_app.
    replace (below k + (below (S k) - below k)) with (below (S k)) by lia.
    apply sublist_app; [|done].
    apply row_events_error_indices in Hrows.
    destruct (decide (chunk_end k - chunk_start k = 0)) as [Hzero|Hsome].
    + rewrite Hzero in Hrows. simpl in Hrows. apply sublist_nil_r in Hrows.
      rewrite Hrows. apply sublist_nil_l.
    + replace (below (S k) - below k) with (chunk_end k - chunk_start k)
        by (unfold chunk_end, chunk_start, below in *; lia).
      by replace (below k) with (chunk_start k)
        by (unfold chunk_end, chunk_start, below in *; lia).
Qed.
End ErrorIndices.

Lemma seq_increasing j n : StronglySorted lt (seq j n).
Proof.
  revert j. induction n as [|n IH]; intros j; simpl; [constructor|].
  constructor; [apply IH|]. apply Forall_seq. intros k Hk. lia.
Qed.

Lemma writer_events_error_indices b rows evs :
  writer_events b rows evs →
  RowError.rowIndex <$> errors_of rows evs `sublist_of` seq 0 (length rows).
Proof.
  assert (Hchunked : ∀ evs', chunked b rows evs' →
    RowError.rowIndex <$> errors_of rows evs' `sublist_of` seq 0 (length rows)).
  { intros evs' Hshape. unfold chunked in Hshape.
    apply chunk_events_error_indices with (rows := rows) in Hshape.
    rewrite Nat.add_0_l, <-(prepare_length b rows) in Hshape.
    rewrite below_total in Hshape by apply CHUNK_SIZE_pos.
    unfold below in Hshape. rewrite Nat.mul_0_l, Nat.min_0_l, Nat.sub_0_r in Hshape.
    by rewrite prepare_length in Hshape. }
  unfold writer_events. destruct (LARGE_DATASET <? length rows); [apply Hchunked|].
  intros (out & rest & -> & Hrest).
  change (errors_of rows (_ :: rest)) with (errors_of rows rest).
  destruct out as [e|]; [by apply Hchunked|]. subst rest. apply sublist_nil_l.
Qed.

(** X7. The errors of an upload are accurate: they are listed in ascending
    row order with no row twice, each gives [rowNumber = rowIndex + 1], and
    its [rowData] is the row given at that index. *)
Theorem errors_name_their_rows {W} `{Database W}
    (rows : list SheetDataRow) tableName (s s1 : State W) b :
  rows ≠ [] →
  getNextBatchId tableName s = (inr b, s1) →
  ∃ result s2,
    storeSheetData (JArr rows) tableName s = (inr result, s2)
    ∧ StronglySorted lt (RowError.rowIndex <$> StoreSheetDataResult.errors result)
    ∧ Forall (λ e, RowError.rowNumber e = RowError.rowIndex e + 1
                   ∧ rows !! RowError.rowIndex e = Some (RowError.rowData e))
        (StoreSheetDataResult.errors result).
Proof.
  intros Hne Halloc.
  pose proof (storeSheetData_run rows tableName s Hne) as Hrun.
  rewrite Halloc in Hrun. destruct Hrun as (evs & w' & Hrun & _ & Hshape).
  eexists _, _. split; [exact Hrun|]. simpl.
  pose proof (writer_events_error_indices b rows evs Hshape) as Hsub.
  split.
  - apply (StronglySorted_sublist _ _ _ Hsub), seq_increasing.
  - apply Forall_forall. intros e He.
    destruct (errors_of_entries rows evs e He) as [Hnumber Hdata].
    split; [done|].
    assert (Hindex : RowError.rowIndex e ∈ seq 0 (length rows)).
    { eapply elem_of_sublist; [|exact Hsub]. by apply list_elem_of_fmap_2. }
    apply elem_of_seq in Hindex as [_ Hlt].
    destruct (lookup_lt_is_Some_2 rows (RowError.rowIndex e)) as [row Hrow]; [lia|].
    by rewrite Hdata, Hrow.
Qed.

Lemma errors_name_their_rows_witness :
  let s := fresh (down_at [1; 2; 4]) in
  let s1 := state_after (getNextBatchId "sheet_data") s in
  three_rows ≠ []
  ∧ getNextBatchId "sheet_data" s = (inr 1%Z, s1)
  ∧ ∃ result s2,
      storeSheetData (JArr three_rows) "sheet_data" s = (inr result, s2)
      ∧ StronglySorted lt (RowError.rowIndex <$> StoreSheetDataResult.errors result)
      ∧ Forall (λ e, RowError.rowNumber e = RowError.rowIndex e + 1
                     ∧ three_rows !! RowError.rowIndex e = Some (RowError.rowData e))
          (StoreSheetDataResult.errors result).
Proof.
  intros s s1. split; [done|]. split; [reflexivity|].
  apply (errors_name_their_rows three_rows "sheet_data" s s1 1); [done|reflexivity].
Defined.

(** ** Listing the batches *)

#[export] Instance descending_total : Total descending.
Proof. intros a b. unfold descending. lia. Qed.

#[export] Instance descending_trans : Transitive descending.
Proof. intros a b c. unfold descending. lia. Qed.

Lemma elem_of_distinct_batch_ids t b :
  b ∈ distinct_batch_ids t ↔ ∃ r, r ∈ t ∧ SheetData.batchId r = b.
Proof.
  unfold distinct_batch_ids.
  rewrite merge_sort_Permutation, elem_of_remove_dups, list_elem_of_fmap.
  split; [intros (r & -> & Hr)|intros (r & Hr & <-)]; by exists r.
Qed.

Lemma distinct_batch_ids_descend t :
  StronglySorted (λ a b, (b < a)%Z) (distinct_batch_ids t).
Proof.
  unfold distinct_batch_ids.
  set (l := remove_dups (SheetData.batchId <$> t)).
  assert (Hnodup : NoDup (merge_sort descending l)).
  { rewrite merge_sort_Permutation. apply NoDup_remove_dups. }
  pose proof (StronglySorted_merge_sort descending l) as Hsorted.
  induction Hsorted as [|x l' _ IH Hx]; [constructor|].
  apply NoDup_cons in Hnodup as [Hfresh Hnodup].
  constructor; [by apply IH|].
  apply Forall_forall. intros y Hy. rewrite Forall_forall in Hx.
  specialize (Hx y Hy). unfold descending in Hx.
  assert (x ≠ y) by (by intros ->). lia.
Qed.

Lemma getAllBatchIds_pg (s : State Pg) :
  down (world s) (clock (world s)) = false →
  getAllBatchIds s
  = (inr (distinct_batch_ids (table (world s))),
     {| world := tick (world s); trace := trace s |}).
Proof.
  intros Hup. unfold getAllBatchIds. simpl. unfold pg_batch_ids. rewrite Hup.
  f_equal. f_equal. rewrite <-list_fmap_compose. apply list_fmap_id.
Qed.

(** X8. When the store answers, [getAllBatchIds] returns the batch ids that
    have at least one row, each once, largest first, and leaves the table
    alone. *)
Theorem getAllBatchIds_lists_batches (s : State Pg) :
  down (world s) (clock (world s)) = false →
  ∃ ids s1,
    getAllBatchIds s = (inr ids, s1)
    ∧ table (world s1) = table (world s)
    ∧ StronglySorted (λ a b, (b < a)%Z) ids
    ∧ ∀ b, b ∈ ids ↔ ∃ r, r ∈ table (world s) ∧ SheetData.batchId r = b.
Proof.
  intros Hup. eexists _, _. split; [by apply getAllBatchIds_pg|].
  split; [done|]. split; [apply distinct_batch_ids_descend|].
  apply elem_of_distinct_batch_ids.
Qed.

Lemma getAllBatchIds_lists_batches_witness :
  let s := state_after (storeSheetData (JArr three_rows) "sheet_data")
             (state_after (storeSheetData (JArr three_rows) "sheet_data")
                (fresh always_up)) in
  down (world s) (clock (world s)) = false
  ∧ ∃ ids s1,
      getAllBatchIds s = (inr ids, s1)
      ∧ table (world s1) = table (world s)
      ∧ StronglySorted (λ a b, (b < a)%Z) ids
      ∧ ∀ b, b ∈ ids ↔ ∃ r, r ∈ table (world s) ∧ SheetData.batchId r = b.
Proof.
  intros s. split; [reflexivity|].
  exact (getAllBatchIds_lists_batches s eq_refl).
Defined.

Lemma head_of_descending (ids : list Z) b :
  StronglySorted (λ a b, (b < a)%Z) ids →
  b ∈ ids → (∀ x, x ∈ ids → (x ≤ b)%Z) → head ids = Some b.
Proof.
  intros Hsorted Hin Hmax. destruct Hsorted as [|x ids _ Hx]; [by apply elem_of_nil in Hin|].
  simpl. f_equal. apply elem_of_cons in Hin as [->|Hin]; [done|].
  rewrite Forall_forall in Hx. specialize (Hx b Hin).
  specialize (Hmax x (list_elem_of_here _ _)). lia.
Qed.

(** X9. A batch shows up in the listing exactly when it stored a row: after
    an upload that inserted at least one row its batch id heads the listing;
    after an upload that inserted none the listing is what it was, without
    that id. *)
Theorem listing_after_upload sheetData tableName (s s1 : State Pg) result :
  storeSheetData sheetData tableName s = (inr result, s1) →
  down (world s1) (clock (world s1)) = false →
  ∃ ids s2,
    getAllBatchIds s1 = (inr ids, s2)
    ∧ match StoreSheetDataResult.inserted result with
      | 0 => ids = distinct_batch_ids (table (world s))
             ∧ StoreSheetDataResult.batchId result ∉ ids
      | S _ => head ids = Some (StoreSheetDataResult.batchId result)
      end.
Proof.
  intros Hstore Hup. eexists _, _. split; [by apply getAllBatchIds_pg|].
  pose proof (storeSheetData_pg sheetData tableName s) as Hstep.
  rewrite Hstore in Hstep. destruct Hstep as (Hid & added & -> & Hlen & Hbatch).
  destruct (StoreSheetDataResult.inserted result) as [|n].
  - destruct added; [|done]. rewrite app_nil_r. split; [done|].
    rewrite elem_of_distinct_batch_ids. intros (r & Hr & Hb).
    apply next_batch_id_fresh in Hr. lia.
  - destruct added as [|x added]; [done|].
    apply head_of_descending; [apply distinct_batch_ids_descend|..].
    + apply elem_of_distinct_batch_ids. exists x. split.
      * apply elem_of_app. right. by left.
      * by apply Forall_cons in Hbatch as [? _].
    + intros b. rewrite elem_of_distinct_batch_ids. intros (r & Hr & <-).
      apply elem_of_app in Hr as [Hr|Hr].
      * apply next_batch_id_fresh in Hr. lia.
      * rewrite Forall_forall in Hbatch. by rewrite (Hbatch r Hr).
Qed.

Lemma listing_after_upload_witness :
  let s := state_after (storeSheetData (JArr three_rows) "sheet_data")
             (fresh always_up) in
  let run := storeSheetData (JArr three_rows) "sheet_data" s in
  storeSheetData (JArr three_rows) "sheet_data" s
  = (inr (StoreSheetDataResult.mk true 2 3 []), run.2)
  ∧ down (world run.2) (clock (world run.2)) = false
  ∧ ∃ ids s2, getAllBatchIds run.2 = (inr ids, s2) ∧ head ids = Some 2%Z.
Proof.
  intros s run.
  assert (Hrun : storeSheetData (JArr three_rows) "sheet_data" s
                 = (inr (StoreSheetDataResult.mk true 2 3 []), run.2))
    by (vm_compute; reflexivity).
  split; [exact Hrun|]. split; [reflexivity|].
  exact (listing_after_upload _ _ s run.2 _ Hrun eq_refl).
Defined.

(** ** The error middleware *)

Lemma prefix_mentions needle haystack :
  String.prefix needle haystack = true ↔ ∃ after, haystack = needle +:+ after.
Proof.
  revert haystack. induction needle as [|a needle IH]; intros haystack.
  - split; [by exists haystack|by destruct haystack].
  - destruct haystack as [|b haystack]; simpl.
    + split; [done|]. by intros [after [=]].
    + destruct (Ascii.ascii_dec a b) as [->|Hne].
      * rewrite IH. split; intros [after Heq]; exists after.
        -- by rewrite Heq.
        -- simpl in Heq. by injection Heq.
      * split; [done|]. intros [after [=]]. done.
Qed.

Lemma includes_unfold needle haystack :
  includes needle haystack
  = String.prefix needle haystack
    || match haystack with
       | String _ rest => includes needle rest
       | EmptyString => false
       end.
Proof. by destruct haystack. Qed.

(** [includes] decides whether the needle occurs. *)
Lemma includes_mentions needle haystack :
  includes needle haystack = true ↔ mentions needle haystack.
Proof.
  unfold mentions. induction haystack as [|c haystack IH]; rewrite includes_unfold.
  - rewrite orb_false_r, prefix_mentions. split.
    + intros [after ->]. by exists "", after.
    + intros ([|??] & after & Heq); [by exists after|done].
  - rewrite orb_true_iff, prefix_mentions, IH. split.
    + intros [[after ->]|(before & after & ->)].
      * by exists "", after.
      * by exists (String c before), after.
    + intros ([|c' before] & after & Heq).
      * left. by exists after.
      * right. injection Heq as -> ->. by exists before, after.
Qed.

(** X10. How [errorHandler] answers an [Error] that is not an [AppError]:
    503 exactly when its message mentions ECONNREFUSED or connection
    (whatever else it mentions); otherwise 400 exactly when it mentions
    validation or invalid; otherwise 500.  Only the 400 answer carries the
    message of the error; the other two carry fixed texts. *)
Theorem errorHandler_classifies_by_message message :
  let response := errorHandler (Error message) in
  let connection :=
    mentions "ECONNREFUSED" message ∨ mentions "connection" message in
  let validation :=
    mentions "validation" message ∨ mentions "invalid" message in
  (status response = 503 ↔ connection)
  ∧ (status response = 400 ↔ ¬ connection ∧ validation)
  ∧ (status response = 500 ↔ ¬ connection ∧ ¬ validation)
  ∧ body_field "success" response = Some (JBool false)
  ∧ body_field "message" response
    = Some (JStr (if decide (status response = 400)
                  then message
                  else if decide (status response = 503)
                  then "Unable to connect to the database. Please check your database configuration."
                  else "An unexpected error occurred. Please try again later.")).
Proof.
  simpl. unfold errorHandler. simpl getErrorMessage.
  rewrite <-!includes_mentions.
  assert (includes "validation" message || includes "invalid" message = true
          → String.eqb message "" = false) as Hnonempty by (by destruct message).
  unfold sendErrorResponse, createErrorResponse.
  destruct (includes "ECONNREFUSED" message) eqn:H1;
    destruct (includes "connection" message) eqn:H2;
    destruct (includes "validation" message) eqn:H3;
    destruct (includes "invalid" message) eqn:H4;
    cbn [orb] in Hnonempty |- *; try rewrite Hnonempty by done; simpl;
    repeat split; try done; try (intros [?|?]; done);
    try (intros [? ?]; done); try (by left); try (by right);
    try (intros [[?|?] ?]; done); try (intros [? [?|?]]; done);
    try (intros [? ?]; tauto); try (by intros [[=]|[=]]); tauto.
Qed.

(** ** What the writer throws *)

Lemma getNextBatchId_throws {W} `{Database W} tableName (s s1 : State W) e :
  getNextBatchId tableName s = (inl e, s1) → ∃ message, e = AppError message 500.
Proof.
  unfold getNextBatchId, mbind, M_bind, await_query.
  destruct (pool_query tableName (world s)) as [[error|batchIdResult] w1].
  - intros [= <- _]. by eexists.
  - destruct (rows batchIdResult !! 0) as [row0|]; [|intros [= <- _]; by eexists].
    destruct (parseInt (next_batch_id row0)); [done|].
    intros [= <- _]. by eexists.
Qed.

(** X11. [storeSheetData] throws nothing but [AppError]s.  Given anything
    but a non-empty array it throws one of status 400 and sends no
    statement; given a non-empty array, whatever it throws is what
    [getNextBatchId] threw, an [AppError] of status 500: no failure of an
    insert is ever thrown. *)
Theorem storeSheetData_throws_only_app_errors {W} `{Database W}
    sheetDataArray tableName (s : State W) :
  match sheetDataArray with
  | JArr (_ :: _) =>
      ∀ e s1, storeSheetData sheetDataArray tableName s = (inl e, s1) →
              getNextBatchId tableName s = (inl e, s1)
              ∧ ∃ message, e = AppError message 500
  | _ => ∃ message,
           storeSheetData sheetDataArray tableName s = (inl (AppError message 400), s)
  end.
Proof.
  destruct sheetDataArray as [| |b|n|str|[|row rows]|fields]; try by eexists.
  intros e s1 Hthrown.
  pose proof (storeSheetData_run (row :: rows) tableName s) as Hrun.
  destruct (getNextBatchId tableName s) as [[e0|b] s0] eqn:Hnext.
  - rewrite Hrun in Hthrown by done. injection Hthrown as <- <-.
    split; [done|]. by eapply getNextBatchId_throws.
  - destruct Hrun as (evs & w' & Hrun & _); [done|]. congruence.
Qed.

(** ** The routes behind [asyncHandler] *)

(** X12. POST /api/upload-sheet-data answers 400, sending no statement,
    exactly when [sheetData] is not a non-empty array; otherwise 500 with
    the allocator's message when [getNextBatchId] throws, and 200 or 207
    with the allocated batch id when it returns.  It never answers 503, and
    the [success] flag of the body is true exactly for 200 and 207. *)
Theorem upload_route_statuses {W} `{Database W} sheetData (s : State W) :
  let '(response, s1) := asyncHandler (upload_sheet_data sheetData) s in
  match sheetData with
  | JArr (_ :: _) =>
      match getNextBatchId "sheet_data" s with
      | (inl e, s0) =>
          status response = 500 ∧ s1 = s0
          ∧ body_field "error" response = Some (JStr (getErrorMessage e))
      | (inr batchId, _) =>
          (status response = 200 ∨ status response = 207)
          ∧ data_field "batchId" response = Some (JNum (number_of_Z batchId))
      end
  | _ => status response = 400 ∧ s1 = s
  end
  ∧ body_field "success" response = Some (JBool (status response <? 400)).
Proof.
  unfold asyncHandler.
  destruct sheetData as [| |b|n|str|[|row rows]|fields]; try done.
  - unfold upload_sheet_data. by destruct (negb (truthy (JBool b))).
  - unfold upload_sheet_data. by destruct (negb (truthy (JNum n))).
  - unfold upload_sheet_data. by destruct (negb (truthy (JStr str))).
  - unfold upload_sheet_data. cbn [truthy negb]. unfold mbind, M_bind.
    pose proof (storeSheetData_run (row :: rows) "sheet_data" s) as Hrun.
    destruct (getNextBatchId "sheet_data" s) as [[e|batchId] s0] eqn:Hnext.
    + rewrite Hrun by done.
      destruct (getNextBatchId_throws _ _ _ _ Hnext) as [message ->]. done.
    + destruct Hrun as (evs & w' & -> & _); [done|]. simpl.
      set (errors := errors_of (row :: rows) evs).
      destruct (0 <? length errors); unfold mret, M_ret;
        (split; [split; [auto|done]|done]).
Qed.

Lemma integer_guard z :
  isNaN (number_of_Z z) || number_lt (number_of_Z z) (number_of_Z 1)
  = (z <? 1)%Z.
Proof.
  destruct (z <? 1)%Z eqn:Hz.
  - simpl. apply Z.ltb_lt. apply Z.ltb_lt in Hz. lia.
  - apply positive_integer_passes_guard. apply Z.ltb_ge in Hz. lia.
Qed.

(** What the batch route's handler does, step by step: the parameter's
    guard, then one select, then the answer or the wrapped rejection. *)
Lemma get_batch_run {W} `{Database W} toString toJSON
    batchIdParam (s : State W) :
  get_batch toString toJSON batchIdParam s
  = match parseInt batchIdParam with
    | Some z =>
        if (z <? 1)%Z then
          (inr (sendErrorResponse
                  ("Invalid batchId: " +:+ batchIdParam
                   +:+ ". Must be a positive number.") 400 None), s)
        else
          let '(settled, w1) := db_select (number_of_Z z) (world s) in
          let s1 := log {| site := Fetch; stmt := SqlSelectBatch (number_of_Z z);
                           failure := failure_of settled |} s w1 in
          match settled with
          | inl error =>
              (inl (AppError (formatErrorMessage "Failed to fetch batch data"
                                (getErrorMessage error)) 500), s1)
          | inr rows =>
              (inr (if length rows =? 0 then
                      sendErrorResponse
                        ("No data found for batch_id: "
                         +:+ toString (number_of_Z z)) 404 None
                    else
                      sendSuccessResponse
                        (JObj [("batchId", JNum (number_of_Z z));
                               ("count",
                                JNum (number_of_Z (Z.of_nat (length rows))));
                               ("data", JArr (toJSON <$> rows))])
                        200 None), s1)
          end
    | None =>
        (inr (sendErrorResponse
                ("Invalid batchId: " +:+ batchIdParam
                 +:+ ". Must be a positive number.") 400 None), s)
    end.
Proof.
  unfold get_batch.
  destruct (parseInt batchIdParam) as [z|]; [|done].
  rewrite integer_guard.
  destruct (z <? 1)%Z eqn:Hz; [done|].
  unfold mbind, M_bind, fetchBatchData. rewrite integer_guard, Hz.
  unfold mbind, M_bind, await_select.
  destruct (db_select (number_of_Z z) (world s)) as [[error|rows] w1]; [done|].
  simpl. by destruct (length rows =? 0).
Qed.

(** X13. GET /api/batch/:batchId answers 400, sending no statement, exactly
    when the parameter does not parse to an integer of at least 1.
    Otherwise exactly one select is sent, with the parsed id, and the
    answer follows its outcome: 500 when it was rejected, 404 when it gave
    no row, 200 with the rows and their count otherwise.  The 400 of
    [fetchBatchData] itself is never reached through the route. *)
Theorem batch_route_statuses {W} `{Database W} toString toJSON
    batchIdParam (s : State W) :
  let '(response, s1) :=
    asyncHandler (get_batch toString toJSON batchIdParam) s in
  match parseInt batchIdParam with
  | Some z =>
      if (z <? 1)%Z then status response = 400 ∧ s1 = s
      else
        let '(settled, w1) := db_select (number_of_Z z) (world s) in
        s1 = log {| site := Fetch; stmt := SqlSelectBatch (number_of_Z z);
                    failure := failure_of settled |} s w1
        ∧ match settled with
          | inl _ => status response = 500
          | inr [] => status response = 404
          | inr rows =>
              status response = 200
              ∧ data_field "batchId" response = Some (JNum (number_of_Z z))
              ∧ data_field "count" response
                = Some (JNum (number_of_Z (Z.of_nat (length rows))))
              ∧ data_field "data" response = Some (JArr (toJSON <$> rows))
          end
  | None => status response = 400 ∧ s1 = s
  end
  ∧ body_field "success" response = Some (JBool (status response <? 400)).
Proof.
  unfold asyncHandler. rewrite get_batch_run.
  destruct (parseInt batchIdParam) as [z|]; [|done].
  destruct (z <? 1)%Z; [done|].
  destruct (db_select (number_of_Z z) (world s)) as [[error|rows] w1]; [done|].
  by destruct rows.
Qed.

(** X14. On the relational store, while it answers, GET /api/batch/:batchId
    changes no row and answers: 400 when the parameter does not parse to an
    integer of at least 1; 500 when the parsed id is beyond the range of
    the integer column; 404 when no row has this batch id; otherwise 200
    with as many rows as the table has for this batch id. *)
Theorem batch_route_on_table toString toJSON batchIdParam (s : State Pg) :
  down (world s) (clock (world s)) = false →
  let '(response, s1) :=
    asyncHandler (get_batch toString toJSON batchIdParam) s in
  table (world s1) = table (world s)
  ∧ match parseInt batchIdParam with
    | None => status response = 400
    | Some z =>
        if (z <? 1)%Z then status response = 400
        else if negb (int4 z) then status response = 500
        else
          let stored := filter (λ r, SheetData.batchId r = z) (table (world s)) in
          match stored with
          | [] => status response = 404
          | _ =>
              status response = 200
              ∧ data_field "count" response
                = Some (JNum (number_of_Z (Z.of_nat (length stored))))
          end
    end.
Proof.
  intros Hup.
  unfold asyncHandler. rewrite get_batch_run.
  destruct (parseInt batchIdParam) as [z|]; [|done].
  destruct (z <? 1)%Z; [done|].
  simpl. unfold pg_select. rewrite Hup, number_to_Z_of_Z.
  destruct (int4 z); simpl; [|done]. split; [done|].
  unfold select_batch.
  set (stored := filter (λ r, SheetData.batchId r = z) (table (world s))).
  assert (length (merge_sort by_row_number stored) = length stored) as Hlength
    by (by rewrite merge_sort_Permutation).
  destruct (merge_sort by_row_number stored) as [|r0 sorted];
    destruct stored as [|r1 stored']; try done.
  split; [done|]. by rewrite <-Hlength.
Qed.

Lemma batch_route_on_table_witness :
  let s := state_after (storeSheetData (JArr three_rows) "sheet_data")
             (fresh always_up) in
  down (world s) (clock (world s)) = false
  ∧ let '(response, s1) :=
      asyncHandler (get_batch sample_toString SheetData.data "1") s in
    table (world s1) = table (world s)
    ∧ status response = 200
    ∧ data_field "count" response = Some (JNum (number_of_Z 3)).
Proof.
  intros s. split; [reflexivity|].
  pose proof (batch_route_on_table sample_toString SheetData.data "1" s eq_refl)
    as Hroute.
  destruct (asyncHandler (get_batch sample_toString SheetData.data "1") s)
    as [response s1].
  exact Hroute.
Defined.

(** X15. Reading back through the route.  After an upload on the relational
    store that returned a batch id of at least 1, and while the store
    answers, GET /api/batch/<that id> answers 404 when the upload inserted
    no row, and otherwise 200 with [count] equal to the upload's
    [inserted]. *)
Theorem batch_route_after_upload toString toJSON rows tableName
    (s s1 : State Pg) result :
  storeSheetData (JArr rows) tableName s = (inr result, s1) →
  (1 ≤ StoreSheetDataResult.batchId result)%Z →
  down (world s1) (clock (world s1)) = false →
  let response :=
    (asyncHandler
       (get_batch toString toJSON (pretty (StoreSheetDataResult.batchId result)))
       s1).1 in
  match StoreSheetDataResult.inserted result with
  | 0 => status response = 404
  | S _ =>
      status response = 200
      ∧ data_field "count" response
        = Some (JNum (number_of_Z
                        (Z.of_nat (StoreSheetDataResult.inserted result))))
  end.
Proof.
  intros Hstore Hpositive Hup.
  destruct (storeSheetData_pg_select _ _ _ _ _ Hstore)
    as (Hrange & Hlength & _).
  set (b := StoreSheetDataResult.batchId result) in *.
  unfold asyncHandler. rewrite get_batch_run, parseInt_pretty.
  replace (b <? 1)%Z with false by (symmetry; apply Z.ltb_ge; lia).
  simpl. unfold pg_select. rewrite Hup, number_to_Z_of_Z, Hrange.
  rewrite <-Hlength.
  by destruct (select_batch b (table (world s1))) as [|r fetched].
Qed.

Lemma batch_route_after_upload_witness :
  let s := fresh (down_at [1; 2; 4]) in
  let s1 := state_after (storeSheetData (JArr three_rows) "sheet_data") s in
  let result := StoreSheetDataResult.mk true 1 2
                  [RowError.mk 1 2 (sample_row 2)
                     "Connection terminated unexpectedly"] in
  storeSheetData (JArr three_rows) "sheet_data" s = (inr result, s1)
  ∧ (1 ≤ 1)%Z
  ∧ down (world s1) (clock (world s1)) = false
  ∧ let response :=
      (asyncHandler (get_batch sample_toString SheetData.data (pretty 1%Z)) s1).1 in
    status response = 200
    ∧ data_field "count" response = Some (JNum (number_of_Z 2)).
Proof.
  intros s s1 result.
  assert (Hrun : storeSheetData (JArr three_rows) "sheet_data" s = (inr result, s1))
    by (vm_compute; reflexivity).
  split; [exact Hrun|]. split; [lia|]. split; [reflexivity|].
  exact (batch_route_after_upload sample_toString SheetData.data three_rows
           "sheet_data" s s1 result Hrun ltac:(simpl; lia) eq_refl).
Defined.

(** X16. GET /health never reaches the error middleware: it answers 200,
    healthy and connected, when SELECT NOW() resolved, and 503, unhealthy
    and disconnected, when it was rejected; the body's [success] flag is
    true in both cases and there is no message. *)
Theorem health_route_reports_connection {W} `{Pool W} (s : State W) :
  let '(settled, w1) := pool_now (world s) in
  ∃ response,
    get_health s = (inr response, {| world := w1; trace := trace s |})
    ∧ asyncHandler get_health s
      = (response, {| world := w1; trace := trace s |})
    ∧ body_field "success" response = Some (JBool true)
    ∧ body_field "message" response = None
    ∧ match settled with
      | inr _ =>
          status response = 200
          ∧ data_field "status" response = Some (JStr "healthy")
          ∧ data_field "database" response = Some (JStr "connected")
      | inl _ =>
          status response = 503
          ∧ data_field "status" response = Some (JStr "unhealthy")
          ∧ data_field "database" response = Some (JStr "disconnected")
      end.
Proof.
  unfold asyncHandler, get_health, mbind, M_bind, testConnection.
  destruct (pool_now (world s)) as [[error|[]] w1]; by eexists.
Qed.

(** X17. GET /api/batches answers 200 with the batch ids of the query's
    rows, in the query's order, and their number (none when the query
    resolved without rows); when the query was rejected it answers 500,
    whatever the rejection says, with the reason appended to the fixed
    text. *)
Theorem batches_route_lists_ids {W} `{Pool W} (s : State W) :
  let '(response, s1) := asyncHandler get_batches s in
  let '(settled, w1) := pool_batch_ids (world s) in
  s1 = {| world := w1; trace := trace s |}
  ∧ body_field "success" response = Some (JBool (status response <? 400))
  ∧ match settled with
    | inl error =>
        status response = 500
        ∧ body_field "error" response
          = Some (JStr (formatErrorMessage "Failed to fetch batch IDs"
                          (getErrorMessage error)))
    | inr result =>
        let ids := batch_id <$> default [] result in
        status response = 200
        ∧ data_field "count" response
          = Some (JNum (number_of_Z (Z.of_nat (length ids))))
        ∧ data_field "batchIds" response
          = Some (JArr ((λ b, JNum (number_of_Z b)) <$> ids))
    end.
Proof.
  unfold asyncHandler, get_batches, mbind, M_bind, getAllBatchIds.
  by destruct (pool_batch_ids (world s)) as [[error|[rows|]] w1].
Qed.

(** X18. Whatever a route's handler throws is an [AppError] of status 500:
    every rejection of the store is wrapped before it leaves the handler.
    So the error middleware answers a route's failure with the error's own
    message and status 500, also when the message mentions a connection
    failure or a validation problem. *)
Theorem routes_throw_only_wrapped_errors {W} `{Database W} `{Pool W}
    toString toJSON sheetData batchIdParam (s s1 : State W) e :
  upload_sheet_data sheetData s = (inl e, s1)
  ∨ get_batch toString toJSON batchIdParam s = (inl e, s1)
  ∨ get_batches s = (inl e, s1)
  ∨ get_health s = (inl e, s1) →
  ∃ message,
    e = AppError message 500
    ∧ errorHandler e = sendErrorResponse message 500 (Some message).
Proof.
  assert ((∃ message, e = AppError message 500) →
          ∃ message,
            e = AppError message 500
            ∧ errorHandler e = sendErrorResponse message 500 (Some message))
    as Hwrap by (intros [message ->]; by exists message).
  intros [Hupload|[Hbatch|[Hbatches|Hhealth]]]; apply Hwrap.
  - unfold upload_sheet_data in Hupload.
    destruct sheetData as [| |b|n|str|[|row rows]|fields]; try done.
    + by destruct (negb (truthy (JBool b))).
    + by destruct (negb (truthy (JNum n))).
    + by destruct (negb (truthy (JStr str))).
    + cbn [truthy negb] in Hupload. unfold mbind, M_bind in Hupload.
      pose proof (storeSheetData_run (row :: rows) "sheet_data" s) as Hrun.
      destruct (getNextBatchId "sheet_data" s) as [[e0|batchId] s0] eqn:Hnext.
      * rewrite Hrun in Hupload by done. injection Hupload as <- <-.
        by eapply getNextBatchId_throws.
      * destruct Hrun as (evs & w' & Hrun & _); [done|].
        rewrite Hrun in Hupload. simpl in Hupload.
        by destruct (0 <? length (errors_of (row :: rows) evs)).
  - rewrite get_batch_run in Hbatch.
    destruct (parseInt batchIdParam) as [z|]; [|done].
    destruct (z <? 1)%Z; [done|].
    destruct (db_select (number_of_Z z) (world s)) as [[error|fetched] w1];
      [|done].
    injection Hbatch as <- _. by eexists.
  - unfold get_batches, mbind, M_bind, getAllBatchIds in Hbatches.
    destruct (pool_batch_ids (world s)) as [[error|[fetched|]] w1]; try done.
    injection Hbatches as <- _. by eexists.
  - unfold get_health, mbind, M_bind, testConnection in Hhealth.
    by destruct (pool_now (world s)) as [[error|[]] w1].
Qed.

Lemma routes_throw_only_wrapped_errors_witness :
  let s := fresh (down_from 0) in
  let e := AppError
             "Failed to fetch batch IDs: Connection terminated unexpectedly" 500 in
  (upload_sheet_data JNull s = (inl e, state_after get_batches s)
   ∨ get_batch sample_toString SheetData.data "" s
     = (inl e, state_after get_batches s)
   ∨ get_batches s = (inl e, state_after get_batches s)
   ∨ get_health s = (inl e, state_after get_batches s))
  ∧ ∃ message,
      e = AppError message 500
      ∧ errorHandler e = sendErrorResponse message 500 (Some message).
Proof.
  intros s e.
  assert (get_batches s = (inl e, state_after get_batches s)) as Hrun
    by (vm_compute; reflexivity).
  split; [right; right; left; exact Hrun|].
  exact (routes_throw_only_wrapped_errors sample_toString SheetData.data
           JNull "" s (state_after get_batches s) e
           (or_intror (or_intror (or_introl Hrun)))).
Defined.

(** The rows a returned upload leaves in the table. *)
Lemma storeSheetData_pg_added rows tableName (s s1 : State Pg) result :
  storeSheetData (JArr rows) tableName s = (inr result, s1) →
  ∃ added,
    table (world s1) = table (world s) ++ added
    ∧ length added = StoreSheetDataResult.inserted result
    ∧ stored_cell <$> added
      `sublist_of` imap (read_back (world s)) rows
    ∧ StoreSheetDataResult.inserted result
      + length (StoreSheetDataResult.errors result) = length rows.
Proof.
  intros Hstore.
  destruct (storeSheetData_pg_rows _ _ _ _ _ Hstore)
    as (evs & added & -> & Hshape & _ & _ & Htable & Hcells & _).
  exists added. simpl. split; [done|]. split; [|split].
  - rewrite <-settled_values_length, <-(length_fmap stored_cell), Hcells.
    by rewrite length_fmap.
  - rewrite Hcells, <-(prepare_cells (world s) (next_batch_id_of (table (world s)))).
    apply fmap_sublist. by apply writer_events_sublist.
  - by apply (writer_events_count (next_batch_id_of (table (world s)))).
Qed.

(** X19. The answer of POST /api/upload-sheet-data agrees with the table of
    the relational store.  The route only ever appends rows.  After a 200
    every row given was one the [data] column takes (none was null), and
    the rows appended are the rows given, in order, numbered from 1, each
    with the payload the column keeps of it; after a 207 they are fewer
    than the rows given and [inserted] is their number; after any other
    answer nothing was appended. *)
Theorem upload_answer_matches_table sheetData (s : State Pg) :
  let '(response, s1) := asyncHandler (upload_sheet_data sheetData) s in
  ∃ added,
    table (world s1) = table (world s) ++ added
    ∧ (status response = 200 →
       ∃ rows, sheetData = JArr rows
               ∧ Forall (λ row, takes (world s) row = true) rows
               ∧ stored_cell <$> added
                 = imap (read_back (world s)) rows)
    ∧ (status response = 207 →
       ∃ rows, sheetData = JArr rows
               ∧ length added < length rows
               ∧ data_field "inserted" response
                 = Some (JNum (number_of_Z (Z.of_nat (length added)))))
    ∧ (status response ≠ 200 → status response ≠ 207 → added = []).
Proof.
  unfold asyncHandler.
  assert (∀ (response : Response) (s1 : State Pg),
            status response = 400 → s1 = s →
            ∃ added,
              table (world s1) = table (world s) ++ added
              ∧ (status response = 200 →
                 ∃ rows, sheetData = JArr rows
                         ∧ Forall (λ row, takes (world s) row = true) rows
                         ∧ stored_cell <$> added
                           = imap (read_back (world s)) rows)
              ∧ (status response = 207 →
                 ∃ rows, sheetData = JArr rows
                         ∧ length added < length rows
                         ∧ data_field "inserted" response
                           = Some (JNum (number_of_Z (Z.of_nat (length added)))))
              ∧ (status response ≠ 200 → status response ≠ 207 → added = []))
    as Hrefused.
  { intros response s1 Hstatus ->. exists []. rewrite app_nil_r, Hstatus.
    by repeat split. }
  destruct sheetData as [| |b|n|str|[|row rows]|fields];
    try (by apply Hrefused).
  - unfold upload_sheet_data. destruct (negb (truthy (JBool b))); by apply Hrefused.
  - unfold upload_sheet_data. destruct (negb (truthy (JNum n))); by apply Hrefused.
  - unfold upload_sheet_data. destruct (negb (truthy (JStr str))); by apply Hrefused.
  - clear Hrefused. unfold upload_sheet_data. cbn [truthy negb].
    unfold mbind, M_bind.
    pose proof (storeSheetData_pg (JArr (row :: rows)) "sheet_data" s) as Htable.
    destruct (storeSheetData (JArr (row :: rows)) "sheet_data" s)
      as [[e|result] s1] eqn:Hstore.
    + exists []. rewrite app_nil_r. split; [done|].
      pose proof (storeSheetData_run (row :: rows) "sheet_data" s) as Hrun.
      destruct (getNextBatchId "sheet_data" s) as [[e0|batchId] s0] eqn:Hnext.
      * rewrite Hrun in Hstore by done. injection Hstore as <- <-.
        destruct (getNextBatchId_throws _ _ _ _ Hnext) as [message ->].
        by repeat split.
      * destruct Hrun as (evs & w' & Hrun & _); [done|]. congruence.
    + clear Htable.
      destruct (storeSheetData_pg_added _ _ _ _ _ Hstore)
        as (added & Htable & Hlength & Hsub & Hcount).
      destruct (StoreSheetDataResult.errors result) as [|error errors] eqn:Herrors;
        simpl; (exists added; split; [done|]); simpl.
      * split; [|by split]. intros _. exists (row :: rows). split; [done|].
        split; [by apply (storeSheetData_pg_taken _ _ _ _ _ Hstore)|].
        apply sublist_same_length; [done|].
        rewrite length_imap, length_fmap. simpl in *. lia.
      * split; [done|]. split; [|done]. intros _.
        exists (row :: rows). split; [done|]. simpl in *.
        split; [lia|]. by rewrite Hlength.
Qed.

(** ** The statements of [insertRowsInChunks] *)

Section Budget.
Variable insertData : list NewSheetData.t.
Variable chunkSize : nat.

Lemma row_events_budget trips i revs :
  row_events insertData trips i revs →
  chunk_numbers revs = [] ∧ retried_rows revs = []
  ∧ single_rows revs = take trips (drop i insertData)
  ∧ length revs = length (single_rows revs).
Proof.
  induction 1 as [i|trips i v out revs Hv _ (Hchunks & Hretried & Hsingles & Hlength)];
    [done|].
  unfold chunk_numbers, retried_rows, single_rows in *.
  rewrite !bind_cons. cbn. rewrite Hchunks, Hretried, Hsingles.
  split; [done|]. split; [done|]. split.
  - by rewrite (drop_S _ _ _ Hv).
  - by rewrite Hlength, Hsingles.
Qed.

Lemma chunk_events_budget trips k evs :
  chunk_events insertData chunkSize trips k evs →
  chunk_numbers evs = seq (k + 1) trips
  ∧ single_rows evs = retried_rows evs
  ∧ length evs = trips + length (retried_rows evs).
Proof.
  induction 1 as [k|trips k evs _ (Hchunks & Hsingles & Hlength)
                 |trips k e revs evs Hrows _ (Hchunks & Hsingles & Hlength)];
    [done|..].
  - unfold chunk_numbers, retried_rows, single_rows in *.
    rewrite !bind_cons. cbn. rewrite Hchunks, Hsingles.
    split; [done|]. split; [done|]. by rewrite Hlength.
  - apply row_events_budget in Hrows as (Hc & Hr & Hs & Hl).
    unfold chunk_numbers, retried_rows, single_rows in *.
    rewrite !bind_cons, !bind_app. cbn. rewrite omap_app.
    rewrite Hc, Hr, Hs, Hsingles, Hchunks.
    split; [done|]. split; [done|].
    rewrite !length_app, Hl, Hlength, Hs. unfold chunk_at, slice.
    rewrite length_nil. lia.
Qed.
End Budget.

(** X20. The statements of one call of [insertRowsInChunks] with a positive
    chunk size: it returns, having sent the chunk inserts numbered 1 to
    ceil(n / chunkSize) in this order, and as single-row inserts exactly
    the rows of the rejected chunk inserts, each once and in their order;
    so the number of statements is the number of chunks plus the number of
    rows in rejected chunks. *)
Theorem insertRowsInChunks_statements {W} `{Database W}
    insertData sheetDataArray chunkSize (s : State W) :
  0 < chunkSize →
  ∃ counters evs w',
    insertRowsInChunks insertData sheetDataArray chunkSize s
    = (inr counters, extend s evs w')
    ∧ chunk_numbers evs = seq 1 (ceil_div (length insertData) chunkSize)
    ∧ single_rows evs = retried_rows evs
    ∧ length evs
      = ceil_div (length insertData) chunkSize + length (retried_rows evs)
    ∧ length evs ≤ ceil_div (length insertData) chunkSize + length insertData.
Proof.
  intros Hpositive. unfold insertRowsInChunks.
  destruct (chunk_loop_run insertData sheetDataArray chunkSize
              (ceil_div (length insertData) chunkSize) 0 0 [] s)
    as (evs & w' & Hrun & _ & Hshape).
  eexists _, evs, w'. split; [exact Hrun|].
  destruct (chunk_events_budget _ _ _ _ _ Hshape) as (Hchunks & Hsingles & Hlength).
  split; [done|]. split; [done|]. split; [done|].
  rewrite Hlength. apply Nat.add_le_mono_l.
  pose proof (chunk_events_partition _ _ _ _ _ Hshape) as Hpartition.
  apply Permutation_length in Hpartition.
  rewrite length_app in Hpartition.
  assert (length (slice (below insertData chunkSize 0)
                    (below insertData chunkSize
                       (0 + ceil_div (length insertData) chunkSize))
                    insertData) ≤ length insertData) as Hslice
    by (unfold slice; rewrite length_take, length_drop; lia).
  assert (length (retried_rows evs)
          ≤ length (settled_values evs) + length (rejected_rows evs)); [|lia].
  rewrite <-Hsingles. clear.
  induction evs as [|ev evs IH]; [done|].
  unfold single_rows, settled_values, rejected_rows in *.
  rewrite !bind_cons, !length_app.
  destruct (is_single ev), (failed ev); simpl; lia.
Qed.

Lemma insertRowsInChunks_statements_witness :
  let s := fresh (down_at [0]) in
  0 < 2
  ∧ ∃ counters evs w',
      insertRowsInChunks (prepare 1 three_rows) three_rows 2 s
      = (inr counters, extend s evs w')
      ∧ chunk_numbers evs = seq 1 (ceil_div (length (prepare 1 three_rows)) 2)
      ∧ single_rows evs = retried_rows evs
      ∧ length evs
        = ceil_div (length (prepare 1 three_rows)) 2 + length (retried_rows evs)
      ∧ length evs
        ≤ ceil_div (length (prepare 1 three_rows)) 2
          + length (prepare 1 three_rows).
Proof.
  intros s. split; [lia|].
  exact (insertRowsInChunks_statements (prepare 1 three_rows) three_rows 2 s
           ltac:(lia)).
Defined.
